(** * MOT: the optimizer header [mot/data/opencl/nmsimplex.h]

    The repository consists of one C/OpenCL header.  The development embeds
    the header verbatim, gives the part of the C translation phases that
    the header exercises (comment removal, tokenisation, conditional
    inclusion, object-like macros, external declarations), and states what
    the header contributes to a translation unit that includes it. *)

From Stdlib Require Import String Ascii List ZArith Lia Bool.
From stdpp Require Import base strings gmap list.

Open Scope string_scope.

(** ** The source file *)

Module Source.

(** The fourteen lines of [nmsimplex.h], character for character.  The
    file uses LF line ends and its last line has no terminating LF. *)
Definition nmsimplex_h_lines : list string :=
  [ "#ifndef NMSIMPLEX_H"
  ; "#define NMSIMPLEX_H"
  ; ""
  ; "/**"
  ; " * Author = Robbert Harms"
  ; " * Date = 2014-02-05"
  ; " * License = LGPL v3"
  ; " * Maintainer = Robbert Harms"
  ; " * Email = robbert.harms@maastrichtuniversity.nl"
  ; " */"
  ; ""
  ; "int nmsimplex(MOT_FLOAT_TYPE* const model_parameters, const void* const data);"
  ; ""
  ; "#endif // NMSIMPLEX_H" ].

Definition LF : ascii := "010"%char.

(** The file as one sequence of characters. *)
Definition nmsimplex_h : string :=
  String.concat (String LF EmptyString) nmsimplex_h_lines.

(** The prototype as the specification quotes it. *)
Definition quoted_prototype : string :=
  "int nmsimplex(MOT_FLOAT_TYPE* const model_parameters, const void* const data);".

End Source.

(** ** Characters, comments and preprocessing tokens *)

Module Lex.

Import Source.

Definition ascii_eq (c d : ascii) : bool := Ascii.eqb c d.

Definition is_digit (c : ascii) : bool :=
  let k := nat_of_ascii c in (48 <=? k)%nat && (k <=? 57)%nat.

Definition is_letter (c : ascii) : bool :=
  let k := nat_of_ascii c in
  ((65 <=? k)%nat && (k <=? 90)%nat) || ((97 <=? k)%nat && (k <=? 122)%nat)
  || (k =? 95)%nat.

Definition is_ident_char (c : ascii) : bool := is_letter c || is_digit c.

(** Space, horizontal tab, vertical tab, form feed, carriage return. *)
Definition is_space (c : ascii) : bool :=
  let k := nat_of_ascii c in
  (k =? 32)%nat || (k =? 9)%nat || (k =? 11)%nat || (k =? 12)%nat || (k =? 13)%nat.

(** Splitting a text at its LF characters: a text with [k] line feeds has
    [k + 1] lines, the last of which is what follows the last LF. *)
Fixpoint split_lines_aux (cur : list ascii) (s : list ascii) : list (list ascii) :=
  match s with
  | [] => [rev cur]
  | c :: r =>
      if ascii_eq c LF then rev cur :: split_lines_aux [] r
      else split_lines_aux (c :: cur) r
  end.

Definition split_lines (s : list ascii) : list (list ascii) :=
  split_lines_aux [] s.

Definition lines_of (s : string) : list string :=
  map string_of_list_ascii (split_lines (list_ascii_of_string s)).

Definition count_char (c : ascii) (s : string) : nat :=
  length (filter (fun d => ascii_eq c d = true) (list_ascii_of_string s)).

(** Translation phase 3, comments: every comment is replaced by one space.
    A block comment runs to the first star-slash after its opening; a line
    comment runs up to, and not including, the next LF.  [scan] returns the
    text without its comments and the state the text ends in.  String and
    character literals, and line splicing by backslash, are not modelled:
    the header contains no quote and no backslash
    ([HeaderFacts.no_quote_or_backslash] below). *)
Inductive cstate := InCode | InBlock | InLine.

Definition emit (c : ascii) (p : list ascii * cstate) : list ascii * cstate :=
  (c :: fst p, snd p).

Fixpoint scan (st : cstate) (s : list ascii) : list ascii * cstate :=
  match s with
  | [] => ([], st)
  | c :: r =>
      match st with
      | InCode =>
          match r with
          | d :: r' =>
              if ascii_eq c "/" && ascii_eq d "*" then emit " " (scan InBlock r')
              else if ascii_eq c "/" && ascii_eq d "/" then emit " " (scan InLine r')
              else emit c (scan InCode r)
          | [] => ([c], InCode)
          end
      | InBlock =>
          match r with
          | d :: r' =>
              if ascii_eq c "*" && ascii_eq d "/" then scan InCode r'
              else scan InBlock r
          | [] => ([], InBlock)
          end
      | InLine =>
          if ascii_eq c LF then emit c (scan InCode r) else scan InLine r
      end
  end.

(** A block comment that is still open at the end of the text leaves the
    text without a translation. *)
Definition strip_comments (s : list ascii) : option (list ascii) :=
  match scan InCode s with
  | (_, InBlock) => None
  | (o, _) => Some o
  end.

(** Preprocessing tokens.  Punctuators are kept one character at a time,
    which is exact for every punctuator of the header. *)
Inductive token :=
  | TIdent (x : string)
  | TNumber (x : string)
  | TPunct (c : ascii).

#[global] Instance token_eq_dec : EqDecision token.
Proof. solve_decision. Defined.

Definition flush (cur : list ascii) : list token :=
  match rev cur with
  | [] => []
  | c :: w =>
      if is_digit c then [TNumber (string_of_list_ascii (c :: w))]
      else [TIdent (string_of_list_ascii (c :: w))]
  end.

(** [cur] holds, in reverse, the identifier or number being read. *)
Fixpoint tokenize_aux (cur : list ascii) (s : list ascii) : list token :=
  match s with
  | [] => flush cur
  | c :: r =>
      if is_ident_char c then tokenize_aux (c :: cur) r
      else flush cur ++ (if is_space c then [] else [TPunct c]) ++ tokenize_aux [] r
  end.

Definition tokenize (s : list ascii) : list token := tokenize_aux [] s.

(** The logical lines of a text, each as its preprocessing tokens. *)
Definition lex (s : string) : option (list (list token)) :=
  map tokenize <$> (split_lines <$> strip_comments (list_ascii_of_string s)).

Definition is_ident (t : token) : bool :=
  match t with TIdent _ => true | _ => false end.

Definition idents (ts : list token) : list string :=
  flat_map (fun t => match t with TIdent x => [x] | _ => [] end) ts.

Definition has_punct (c : ascii) (ts : list token) : bool :=
  existsb (fun t => match t with TPunct d => ascii_eq c d | _ => false end) ts.

(** What each line of a text holds, reading the lines in order: a line
    that starts inside a block comment is read in that state, and a line
    comment ends with its line. *)
Inductive line_kind := Blank | Comment | Directive | Code.

#[global] Instance line_kind_eq_dec : EqDecision line_kind.
Proof. solve_decision. Defined.

Definition kind_of (st : cstate) (l : list ascii) : line_kind :=
  match tokenize (fst (scan st l)) with
  | [] => if forallb is_space l then Blank else Comment
  | TPunct c :: _ => if ascii_eq c "#" then Directive else Code
  | _ :: _ => Code
  end.

Definition next_line_state (st : cstate) (l : list ascii) : cstate :=
  match snd (scan st l) with
  | InBlock => InBlock
  | InCode | InLine => InCode
  end.

Fixpoint line_kinds_from (st : cstate) (ls : list (list ascii)) : list line_kind :=
  match ls with
  | [] => []
  | l :: r => kind_of st l :: line_kinds_from (next_line_state st l) r
  end.

Definition line_kinds (s : string) : list line_kind :=
  line_kinds_from InCode (split_lines (list_ascii_of_string s)).

End Lex.

(** ** Conditional inclusion and object-like macros *)

Module Cpp.

Import Lex.

Inductive directive :=
  | DIfdef (x : string)
  | DIfndef (x : string)
  | DElse
  | DEndif
  | DDefine (x : string) (body : list token)
  | DUndef (x : string).

Inductive pp_line :=
  | LDirective (d : directive)
  | LText (ts : list token).

(** A logical line whose first token is [#] is a directive; a lone [#] is
    the null directive.  Function-like macros and the directives the header
    does not use ([#include], [#if], [#pragma], ...) have no translation
    here; since white space is gone after tokenisation, a [#define] whose
    replacement list starts with a parenthesis is refused as well. *)
Definition classify (ts : list token) : option pp_line :=
  match ts with
  | TPunct c :: r =>
      if ascii_eq c "#" then
        match r with
        | [] => Some (LText [])
        | TIdent kw :: args =>
            if String.eqb kw "ifndef" then
              match args with [TIdent x] => Some (LDirective (DIfndef x)) | _ => None end
            else if String.eqb kw "ifdef" then
              match args with [TIdent x] => Some (LDirective (DIfdef x)) | _ => None end
            else if String.eqb kw "else" then
              match args with [] => Some (LDirective DElse) | _ => None end
            else if String.eqb kw "endif" then
              match args with [] => Some (LDirective DEndif) | _ => None end
            else if String.eqb kw "define" then
              match args with
              | TIdent x :: body =>
                  if has_punct "(" (firstn 1 body) then None
                  else Some (LDirective (DDefine x body))
              | _ => None
              end
            else if String.eqb kw "undef" then
              match args with [TIdent x] => Some (LDirective (DUndef x)) | _ => None end
            else None
        | _ => None
        end
      else Some (LText ts)
  | _ => Some (LText ts)
  end.

(** Replacement of object-like macros with rescanning.  [hide] holds the
    macros being replaced, which are not replaced again inside their own
    replacement list; every level of nesting adds a macro to it, so
    [S (size env)] levels are enough. *)
Fixpoint expand_fuel (fuel : nat) (env : gmap string (list token))
    (hide : list string) (ts : list token) : list token :=
  match fuel with
  | O => ts
  | S fuel' =>
      flat_map
        (fun t =>
           match t with
           | TIdent x =>
               if bool_decide (x ∈ hide) then [t]
               else match env !! x with
                    | Some body => expand_fuel fuel' env (x :: hide) body
                    | None => [t]
                    end
           | _ => [t]
           end) ts
  end.

Definition expand (env : gmap string (list token)) (ts : list token) : list token :=
  expand_fuel (S (size env)) env [] ts.

#[global] Arguments expand : simpl never.

(** One open [#ifdef]/[#ifndef] group: whether its current branch is
    taken, and whether its [#else] has been seen. *)
Record cond := { c_taken : bool; c_else : bool }.

Record pp_state := {
  macros : gmap string (list token);
  conds : list cond;
  out : list token
}.

Definition active (st : pp_state) : bool := forallb c_taken (conds st).

Definition defined (env : gmap string (list token)) (x : string) : bool :=
  bool_decide (is_Some (env !! x)).

Definition push_cond (b : bool) (st : pp_state) : pp_state :=
  {| macros := macros st;
     conds := {| c_taken := b; c_else := false |} :: conds st;
     out := out st |}.

(** Directives inside a skipped group only keep track of the nesting.  A
    macro may be defined again only with the same replacement list. *)
Definition step (st : pp_state) (l : pp_line) : option pp_state :=
  match l with
  | LText ts =>
      if active st then
        Some {| macros := macros st; conds := conds st;
                out := out st ++ expand (macros st) ts |}
      else Some st
  | LDirective (DIfdef x) => Some (push_cond (defined (macros st) x) st)
  | LDirective (DIfndef x) => Some (push_cond (negb (defined (macros st) x)) st)
  | LDirective DElse =>
      match conds st with
      | c :: cs =>
          if c_else c then None
          else Some {| macros := macros st;
                       conds := {| c_taken := negb (c_taken c); c_else := true |} :: cs;
                       out := out st |}
      | [] => None
      end
  | LDirective DEndif =>
      match conds st with
      | _ :: cs => Some {| macros := macros st; conds := cs; out := out st |}
      | [] => None
      end
  | LDirective (DDefine x body) =>
      if active st then
        match macros st !! x with
        | Some old => if decide (old = body) then Some st else None
        | None => Some {| macros := <[x := body]> (macros st);
                          conds := conds st; out := out st |}
        end
      else Some st
  | LDirective (DUndef x) =>
      if active st then
        Some {| macros := delete x (macros st); conds := conds st; out := out st |}
      else Some st
  end.

Fixpoint run (st : pp_state) (ls : list (list token)) : option pp_state :=
  match ls with
  | [] => Some st
  | l :: r => pl ← classify l; st' ← step st pl; run st' r
  end.

(** A translation unit under construction: the macros defined so far and
    the tokens that reached translation phase 7.  Macros are object-like
    and their replacement lists are plain tokens: a unit that defines a
    function-like macro, or uses the [#] and [##] operators, has no value
    of this type. *)
Record tunit := {
  tu_macros : gmap string (list token);
  tu_tokens : list token
}.

Definition empty_tunit : tunit := {| tu_macros := ∅; tu_tokens := [] |}.

(** [#include] of a file whose text is [text]: the file is translated in
    the unit's current macro environment, and every conditional group it
    opens must be closed inside it. *)
Definition include_text (text : string) (tu : tunit) : option tunit :=
  ls ← lex text;
  st ← run {| macros := tu_macros tu; conds := []; out := tu_tokens tu |} ls;
  match conds st with
  | [] => Some {| tu_macros := macros st; tu_tokens := out st |}
  | _ :: _ => None
  end.

Fixpoint include_times (n : nat) (text : string) (tu : tunit) : option tunit :=
  match n with
  | O => Some tu
  | S n' => tu' ← include_text text tu; include_times n' text tu'
  end.

End Cpp.

(** ** External declarations *)

Module Decl.

Import Lex.

Inductive base_type :=
  | Tvoid | Tchar | Tshort | Tint | Tlong | Tfloat | Tdouble
  | Tnamed (x : string).

Inductive ctype :=
  | Tbase (is_const : bool) (b : base_type)
  | Tptr (is_const : bool) (pointee : ctype).

Inductive storage := SNone | SExtern | SStatic | STypedef.

Record param := { p_type : ctype; p_name : option string }.

Inductive decl_kind :=
  | KFunction (params : list param) (has_body : bool)
  | KObject.

(** For a function, [d_type] is the return type. *)
Record ext_decl := {
  d_storage : storage;
  d_type : ctype;
  d_name : string;
  d_kind : decl_kind
}.

#[global] Instance base_type_eq_dec : EqDecision base_type.
Proof. solve_decision. Defined.
#[global] Instance ctype_eq_dec : EqDecision ctype.
Proof. solve_decision. Defined.
#[global] Instance storage_eq_dec : EqDecision storage.
Proof. solve_decision. Defined.
#[global] Instance param_eq_dec : EqDecision param.
Proof. solve_decision. Defined.
#[global] Instance decl_kind_eq_dec : EqDecision decl_kind.
Proof. solve_decision. Defined.
#[global] Instance ext_decl_eq_dec : EqDecision ext_decl.
Proof. solve_decision. Defined.

Definition keyword_base (x : string) : option base_type :=
  if String.eqb x "void" then Some Tvoid
  else if String.eqb x "char" then Some Tchar
  else if String.eqb x "short" then Some Tshort
  else if String.eqb x "int" then Some Tint
  else if String.eqb x "long" then Some Tlong
  else if String.eqb x "float" then Some Tfloat
  else if String.eqb x "double" then Some Tdouble
  else None.

Definition keyword_storage (x : string) : option storage :=
  if String.eqb x "extern" then Some SExtern
  else if String.eqb x "static" then Some SStatic
  else if String.eqb x "typedef" then Some STypedef
  else None.

(** Words that can neither be declared nor name a type.  Those with no
    other case in the parser ([struct], [enum], [unsigned], ...) make a
    declaration that uses them untranslatable. *)
Definition reserved : list string :=
  [ "const"; "void"; "char"; "short"; "int"; "long"; "float"; "double";
    "extern"; "static"; "typedef"; "struct"; "union"; "enum"; "signed";
    "unsigned"; "volatile"; "restrict"; "inline"; "auto"; "register";
    "sizeof"; "return"; "if"; "else"; "for"; "while"; "do"; "switch";
    "case"; "default"; "break"; "continue"; "goto" ].

Definition is_reserved (x : string) : bool := existsb (String.eqb x) reserved.

(** Declaration specifiers: [const] any number of times and one base type,
    which is a keyword or, when no base type has been read yet, a name
    declared elsewhere.  Stops in front of the declarator. *)
Fixpoint parse_specs (is_const : bool) (b : option base_type) (ts : list token)
    : option (ctype * list token) :=
  match ts with
  | TIdent x :: r =>
      if String.eqb x "const" then parse_specs true b r
      else
        match keyword_base x, b with
        | Some k, None => parse_specs is_const (Some k) r
        | Some _, Some _ => None
        | None, None =>
            if is_reserved x then None
            else parse_specs is_const (Some (Tnamed x)) r
        | None, Some b' => Some (Tbase is_const b', ts)
        end
  | _ =>
      match b with
      | Some b' => Some (Tbase is_const b', ts)
      | None => None
      end
  end.

(** The pointer part of a declarator: each star makes a pointer to the
    type read so far, and a [const] after a star qualifies that pointer. *)
Fixpoint parse_ptrs (t : ctype) (ts : list token) : ctype * list token :=
  match ts with
  | TPunct c :: r =>
      if ascii_eq c "*" then parse_ptrs (Tptr false t) r else (t, ts)
  | TIdent x :: r =>
      if String.eqb x "const" then
        match t with
        | Tptr _ t' => parse_ptrs (Tptr true t') r
        | Tbase _ _ => (t, ts)
        end
      else (t, ts)
  | _ => (t, ts)
  end.

Definition parse_name (ts : list token) : option (string * list token) :=
  match ts with
  | TIdent x :: r => if is_reserved x then None else Some (x, r)
  | _ => None
  end.

Definition parse_param (ts : list token) : option (param * list token) :=
  '(t0, r0) ← parse_specs false None ts;
  let '(t, r1) := parse_ptrs t0 r0 in
  match parse_name r1 with
  | Some (x, r2) => Some ({| p_type := t; p_name := Some x |}, r2)
  | None => Some ({| p_type := t; p_name := None |}, r1)
  end.

(** The parameters after the opening parenthesis, up to and including the
    closing one. *)
Fixpoint parse_params_fuel (fuel : nat) (ts : list token)
    : option (list param * list token) :=
  match fuel with
  | O => None
  | S fuel' =>
      '(p, r) ← parse_param ts;
      match r with
      | TPunct c :: r' =>
          if ascii_eq c ")" then Some ([p], r')
          else if ascii_eq c "," then
            '(ps, r'') ← parse_params_fuel fuel' r'; Some (p :: ps, r'')
          else None
      | _ => None
      end
  end.

Definition parse_params (ts : list token) : option (list param * list token) :=
  match ts with
  | TPunct c :: r =>
      if ascii_eq c ")" then Some ([], r)
      else None
  | _ =>
      '(ps, r) ← parse_params_fuel (length ts) ts;
      if decide (ps = [ {| p_type := Tbase false Tvoid; p_name := None |} ])
      then Some ([], r) else Some (ps, r)
  end.

(** A function body, from behind its opening brace to behind the brace
    that closes it; [depth] counts the braces still open inside it. *)
Fixpoint skip_body (depth : nat) (ts : list token) : option (list token) :=
  match ts with
  | [] => None
  | TPunct c :: r =>
      if ascii_eq c "{" then skip_body (S depth) r
      else if ascii_eq c "}" then
        match depth with O => Some r | S d => skip_body d r end
      else skip_body depth r
  | _ :: r => skip_body depth r
  end.

Definition parse_storage (ts : list token) : storage * list token :=
  match ts with
  | TIdent x :: r =>
      match keyword_storage x with Some s => (s, r) | None => (SNone, ts) end
  | _ => (SNone, ts)
  end.

(** One external declaration: an object or type name, a function
    prototype, or a function definition. *)
Definition parse_decl (ts : list token) : option (ext_decl * list token) :=
  let '(st, r0) := parse_storage ts in
  '(t0, r1) ← parse_specs false None r0;
  let '(t, r2) := parse_ptrs t0 r1 in
  '(x, r3) ← parse_name r2;
  match r3 with
  | TPunct c :: r4 =>
      if ascii_eq c ";" then
        Some ({| d_storage := st; d_type := t; d_name := x; d_kind := KObject |}, r4)
      else if ascii_eq c "(" then
        '(ps, r5) ← parse_params r4;
        match r5 with
        | TPunct c' :: r6 =>
            if ascii_eq c' ";" then
              Some ({| d_storage := st; d_type := t; d_name := x;
                       d_kind := KFunction ps false |}, r6)
            else if ascii_eq c' "{" then
              r7 ← skip_body 0 r6;
              Some ({| d_storage := st; d_type := t; d_name := x;
                       d_kind := KFunction ps true |}, r7)
            else None
        | _ => None
        end
      else None
  | _ => None
  end.

Fixpoint parse_unit_fuel (fuel : nat) (ts : list token) : option (list ext_decl) :=
  match ts with
  | [] => Some []
  | _ :: _ =>
      match fuel with
      | O => None
      | S fuel' =>
          '(d, r) ← parse_decl ts;
          ds ← parse_unit_fuel fuel' r;
          Some (d :: ds)
      end
  end.

(** The external declarations of a token sequence; every declaration takes
    at least one token, so the fuel never runs out. *)
Definition parse_unit (ts : list token) : option (list ext_decl) :=
  parse_unit_fuel (length ts) ts.

(** *** Linkage and what a type lets a function do *)

Inductive linkage := External | Internal | NoLinkage.

#[global] Instance linkage_eq_dec : EqDecision linkage.
Proof. solve_decision. Defined.

(** The linkage of a declaration that no declaration of the same name
    precedes: at file scope a function or object declared without storage
    class, or with [extern], has external linkage; a type name has none.
    [linkage_after] below takes earlier declarations into account. *)
Definition linkage_of (d : ext_decl) : linkage :=
  match d_storage d with
  | SStatic => Internal
  | STypedef => NoLinkage
  | SNone | SExtern => External
  end.

Definition is_function (d : ext_decl) : bool :=
  match d_kind d with KFunction _ _ => true | KObject => false end.

Definition is_definition (d : ext_decl) : bool :=
  match d_kind d with KFunction _ b => b | KObject => false end.

(** The linkage that the declarations so far have given to the name [x];
    [env] lists the names declared so far, the latest first. *)
Definition prior_linkage (env : list (string * linkage)) (x : string)
    : option linkage :=
  snd <$> List.find
            (fun e => String.eqb (fst e) x && negb (bool_decide (snd e = NoLinkage)))
            env.

(** The linkage of a declaration behind earlier ones: a function declared
    without storage class, and anything declared [extern], takes over the
    linkage of the latest earlier declaration of its name, and has
    external linkage when there is none. *)
Definition linkage_after (env : list (string * linkage)) (d : ext_decl) : linkage :=
  match d_storage d with
  | SStatic => Internal
  | STypedef => NoLinkage
  | SExtern => default External (prior_linkage env (d_name d))
  | SNone =>
      if is_function d then default External (prior_linkage env (d_name d))
      else External
  end.

Fixpoint linkage_env (env : list (string * linkage)) (ds : list ext_decl)
    : list (string * linkage) :=
  match ds with
  | [] => env
  | d :: r => linkage_env ((d_name d, linkage_after env d) :: env) r
  end.

(** The names of a sequence of declarations, in order, with their
    linkage. *)
Definition linkages (ds : list ext_decl) : list (string * linkage) :=
  rev (linkage_env [] ds).

Definition params_of (d : ext_decl) : list param :=
  match d_kind d with KFunction ps _ => ps | KObject => [] end.

Definition type_const (t : ctype) : bool :=
  match t with Tbase c _ => c | Tptr c _ => c end.

(** A named type is taken as complete, and [type_const] sees the
    qualifiers that the declaration itself writes: what a name such as
    [MOT_FLOAT_TYPE] stands for is settled by the including unit. *)
Definition complete (t : ctype) : bool :=
  match t with Tbase _ Tvoid => false | _ => true end.

(** An lvalue can be assigned to when its type is complete and not
    const-qualified. *)
Definition modifiable (t : ctype) : bool := complete t && negb (type_const t).

(** Whether [*e = v] is accepted for an expression [e] of type [t]. *)
Definition store_through (t : ctype) : bool :=
  match t with Tptr _ p => modifiable p | Tbase _ _ => false end.

(** Whether the prototype writes [const] on what a pointer points to. *)
Definition pointee_const (t : ctype) : option bool :=
  match t with Tptr _ p => Some (type_const p) | Tbase _ _ => None end.

(** Whether [*e] can be read for an expression [e] of type [t]. *)
Definition load_through (t : ctype) : bool :=
  match t with Tptr _ p => complete p | Tbase _ _ => false end.

(** A pointer conversion that keeps the qualifiers of the pointed-to type
    and changes what it points to, as in [(const T * )e]. *)
Definition retarget (t : ctype) (b : base_type) : ctype :=
  match t with
  | Tptr c (Tbase q _) => Tptr c (Tbase q b)
  | _ => t
  end.

Definition find_param (x : string) (d : ext_decl) : option ctype :=
  p_type <$> List.find (fun p => bool_decide (p_name p = Some x)) (params_of d).

Fixpoint type_names (t : ctype) : list string :=
  match t with
  | Tbase _ (Tnamed x) => [x]
  | Tbase _ _ => []
  | Tptr _ p => type_names p
  end.

Definition decl_type_names (d : ext_decl) : list string :=
  type_names (d_type d) ++ flat_map (fun p => type_names (p_type p)) (params_of d).

(** The type names a sequence of declarations uses before any of them has
    declared the name with [typedef]; [known] are the names declared so
    far. *)
Fixpoint undeclared_types (known : list string) (ds : list ext_decl) : list string :=
  match ds with
  | [] => []
  | d :: r =>
      filter (fun x => x ∉ known) (decl_type_names d)
      ++ undeclared_types
           (match d_storage d with STypedef => d_name d :: known | _ => known end) r
  end.

(** The type of a call [f(...)] in a unit with declarations [ds]. *)
Definition call_type (ds : list ext_decl) (f : string) : option ctype :=
  d_type <$> List.find (fun d => is_function d && String.eqb (d_name d) f) ds.

End Decl.

(** ** The header as a unit transformer *)

Module Header.

Import Source Lex Cpp Decl.

Definition guard : string := "NMSIMPLEX_H".

(** The tokens of line 12. *)
Definition prototype_tokens : list token :=
  [ TIdent "int"; TIdent "nmsimplex"; TPunct "(";
    TIdent "MOT_FLOAT_TYPE"; TPunct "*"; TIdent "const";
    TIdent "model_parameters"; TPunct ",";
    TIdent "const"; TIdent "void"; TPunct "*"; TIdent "const";
    TIdent "data"; TPunct ")"; TPunct ";" ].

(** The declaration those tokens make when none of them is a macro. *)
Definition nmsimplex_decl : ext_decl :=
  {| d_storage := SNone;
     d_type := Tbase false Tint;
     d_name := "nmsimplex";
     d_kind :=
       KFunction
         [ {| p_type := Tptr true (Tbase false (Tnamed "MOT_FLOAT_TYPE"));
              p_name := Some "model_parameters" |};
           {| p_type := Tptr true (Tbase true Tvoid);
              p_name := Some "data" |} ]
         false |}.

(** [#include "nmsimplex.h"] read off the file: lines 1 and 14 make the
    body conditional on [NMSIMPLEX_H] being undefined, line 2 defines it
    with an empty replacement list, line 12 contributes its tokens after
    macro replacement. *)
Definition include_nmsimplex_h (tu : tunit) : tunit :=
  if defined (tu_macros tu) guard then tu
  else
    let env := <[guard := []]> (tu_macros tu) in
    {| tu_macros := env;
       tu_tokens := tu_tokens tu ++ expand env prototype_tokens |}.

(** The external declarations of a unit that consists of the header. *)
Definition header_unit : option tunit := include_text nmsimplex_h empty_tunit.

Definition header_decls : option (list ext_decl) :=
  tu ← header_unit; parse_unit (tu_tokens tu).

(** The logical lines of the header after comment removal. *)
Definition header_logical_lines : list (list token) :=
  [ [TPunct "#"; TIdent "ifndef"; TIdent "NMSIMPLEX_H"];
    [TPunct "#"; TIdent "define"; TIdent "NMSIMPLEX_H"];
    []; []; [];
    prototype_tokens;
    [];
    [TPunct "#"; TIdent "endif"] ].

(** No identifier of [ts] is a macro in [env]. *)
Definition no_macro (env : gmap string (list token)) (ts : list token) : bool :=
  forallb (fun x => negb (defined env x)) (idents ts).

(** The parameter [x] of the first declaration that including the header
    adds to the unit [tu]. *)
Definition param_type_in (tu : tunit) (x : string) : option ctype :=
  tu' ← include_text nmsimplex_h tu;
  ds ← parse_unit (drop (length (tu_tokens tu)) (tu_tokens tu'));
  d ← head ds;
  find_param x d.

(** An including unit that has defined [MOT_FLOAT_TYPE] as the macro [b]. *)
Definition unit_with_float (b : string) : tunit :=
  {| tu_macros := {[ "MOT_FLOAT_TYPE" := [TIdent b] ]}; tu_tokens := [] |}.

(** Lines 4 to 10 of the file, its only comment block. *)
Definition comment_block (s : string) : list string :=
  take 7 (drop 3 (lines_of s)).

Definition numbers (ts : list token) : list string :=
  flat_map (fun t => match t with TNumber x => [x] | _ => [] end) ts.

Definition tokens_of (s : string) : list token :=
  tokenize (list_ascii_of_string s).

(** A unit that declares [MOT_FLOAT_TYPE] as a type and a function of its
    own before it includes the header. *)
Definition footprint_unit : tunit :=
  {| tu_macros := {[ "MOT_FLOAT_KIND" := [TNumber "1"] ]};
     tu_tokens :=
       tokens_of
         "typedef float MOT_FLOAT_TYPE; double evaluate(const void* const data);" |}.

(** The directive that removes the guard macro. *)
Definition undef_guard : string := "#undef NMSIMPLEX_H".

(** The base type that the word [b] names in a declaration. *)
Definition base_of (b : string) : base_type :=
  match keyword_base b with Some k => k | None => Tnamed b end.

(** A word that can stand where a declaration needs its base type. *)
Definition type_word (b : string) : bool :=
  negb (String.eqb b "const")
  && (bool_decide (is_Some (keyword_base b)) || negb (is_reserved b)).

(** The declaration of line 12 when [MOT_FLOAT_TYPE] names [bt]. *)
Definition nmsimplex_decl_for (bt : base_type) : ext_decl :=
  {| d_storage := SNone;
     d_type := Tbase false Tint;
     d_name := "nmsimplex";
     d_kind :=
       KFunction
         [ {| p_type := Tptr true (Tbase false bt);
              p_name := Some "model_parameters" |};
           {| p_type := Tptr true (Tbase true Tvoid);
              p_name := Some "data" |} ]
         false |}.

(** The words of line 12 other than [MOT_FLOAT_TYPE]. *)
Definition fixed_words : list string :=
  ["int"; "nmsimplex"; "const"; "model_parameters"; "void"; "data"].

(** The declarations that including the header adds to the unit [tu]. *)
Definition added_decls (tu : tunit) : option (list ext_decl) :=
  tu' ← include_text nmsimplex_h tu;
  parse_unit (drop (length (tu_tokens tu)) (tu_tokens tu')).

(** The names that a sequence of declarations declares as types. *)
Definition typedef_names (ds : list ext_decl) : list string :=
  flat_map (fun d => match d_storage d with STypedef => [d_name d] | _ => [] end) ds.

(** The logical line [#define x body]. *)
Definition define_line (x : string) (body : list token) : list token :=
  TPunct "#" :: TIdent "define" :: TIdent x :: body.

(** Logical lines translated at the end of the unit [tu]. *)
Definition run_lines (ls : list (list token)) (tu : tunit) : option tunit :=
  st ← run {| macros := tu_macros tu; conds := []; out := tu_tokens tu |} ls;
  match conds st with
  | [] => Some {| tu_macros := macros st; tu_tokens := out st |}
  | _ :: _ => None
  end.

(** What [MOT_FLOAT_TYPE] names in a unit with the macros [env]: itself
    when it is not a macro, and what [b] names when it is a macro for the
    one type word [b] and [b] is not a macro. *)
Definition float_type_in (env : gmap string (list token)) : option base_type :=
  match env !! "MOT_FLOAT_TYPE" with
  | None => Some (Tnamed "MOT_FLOAT_TYPE")
  | Some [TIdent b] =>
      if type_word b && negb (defined env b) && negb (String.eqb b guard)
      then Some (base_of b) else None
  | Some _ => None
  end.

(** The macros that are defined differently in [tu'] than in [tu]. *)
Definition new_macros (tu tu' : tunit) : list string :=
  filter (fun x => tu_macros tu !! x <> tu_macros tu' !! x)
    (elements (dom (tu_macros tu') ∪ dom (tu_macros tu))).

(** The names that [tu'] declares behind the declarations of [tu], with
    their linkage. *)
Definition new_names (tu tu' : tunit) : option (list (string * linkage)) :=
  ds ← parse_unit (tu_tokens tu);
  ds' ← parse_unit (tu_tokens tu');
  Some (drop (length ds) (linkages ds')).

(** The footprint of the header on the unit [tu] is the one macro
    [NMSIMPLEX_H] and the one name [nmsimplex] with external linkage. *)
Definition footprint_as_claimed (tu : tunit) : bool :=
  match include_text nmsimplex_h tu with
  | Some tu' =>
      bool_decide (new_macros tu tu' = [guard])
      && bool_decide (new_names tu tu' = Some [("nmsimplex", External)])
  | None => false
  end.

(** Units on which the footprint is another one: a unit that has included
    the header before, a unit that has declared [nmsimplex] as [static],
    and a unit in which [nmsimplex] is a macro. *)
Definition included_unit : tunit := include_nmsimplex_h empty_tunit.

Definition static_unit : tunit :=
  {| tu_macros := ∅;
     tu_tokens :=
       tokens_of
         "typedef float MOT_FLOAT_TYPE; static int nmsimplex(MOT_FLOAT_TYPE* const model_parameters, const void* const data);" |}.

Definition renaming_unit : tunit :=
  {| tu_macros := {[ "nmsimplex" := [TIdent "nmsimplex_float"] ]};
     tu_tokens := tokens_of "typedef float MOT_FLOAT_TYPE;" |}.

(** An including unit that has defined [MOT_FLOAT_TYPE] as [half] and a
    macro of its own. *)
Definition half_unit : tunit :=
  {| tu_macros := <[ "MOT_FLOAT_TYPE" := [TIdent "half"] ]>
                    {[ "NMSIMPLEX_MAXITER" := [TNumber "100"] ]};
     tu_tokens := tokens_of "typedef float real;" |}.

End Header.

(** ** The routine behind the prototype *)

Module Routine.

Local Open Scope Z_scope.
Local Open Scope list_scope.

(** An OpenCL C [int] has 32 bits, two's complement. *)
Definition wrap_int (z : Z) : Z := (z + 2 ^ 31) mod 2 ^ 32 - 2 ^ 31.

Section Memory.

(** [F] stands for [MOT_FLOAT_TYPE], which the including unit defines, and
    [D] for the structure behind [data], which the caller defines. *)
Context {F D : Type}.

(** Modelled from the spec: what the two pointers of a call refer to,
    which no file of the repository describes.  Section 3 of the
    specification has a sequence of floating-point values behind
    [model_parameters] and an opaque context behind [data]. *)
Inductive value :=
  | VFloat (v : F)
  | VOpaque (c : D).

(** Modelled from the spec: the memory a call works on.  It is a finite
    map from addresses to cells; one cell holds one element of a numeric
    buffer or one context structure, and may lie in memory that cannot be
    written.  Address 0 is the null pointer.  The layout of the elements
    in bytes is not modelled. *)
Record cell := { writable : bool; content : value }.

Definition null : Z := 0.

Definition load_float (m : gmap Z cell) (a : Z) : option F :=
  match m !! a with
  | Some {| content := VFloat v |} => Some v
  | _ => None
  end.

Definition load_data (m : gmap Z cell) (a : Z) : option D :=
  match m !! a with
  | Some {| content := VOpaque c |} => Some c
  | _ => None
  end.

(** A store does not look at what the cell holds: a number can be
    written over anything that lies in writable memory, also over a
    context. *)
Definition store_float (m : gmap Z cell) (a : Z) (v : F) : option (gmap Z cell) :=
  match m !! a with
  | Some {| writable := true |} =>
      Some (<[a := {| writable := true; content := VFloat v |}]> m)
  | _ => None
  end.

(** The [k] elements at [p], [p + 1], ... *)
Fixpoint load_buf (m : gmap Z cell) (p : Z) (k : nat) : option (list F) :=
  match k with
  | O => Some []
  | S k' => v ← load_float m p; vs ← load_buf m (p + 1) k'; Some (v :: vs)
  end.

Fixpoint store_buf (m : gmap Z cell) (p : Z) (vs : list F) : option (gmap Z cell) :=
  match vs with
  | [] => Some m
  | v :: r => m' ← store_float m p v; store_buf m' (p + 1) r
  end.

(** Modelled from the spec: the body of [nmsimplex], of which the
    repository holds the prototype only.  Following sections 3 and 4.1 of
    the specification, the routine reads the [nparams] elements of the
    buffer at [model_parameters] and the context at [data], performs an
    optimization that is defined elsewhere, overwrites the buffer in place
    with the optimized values and reports an [int] status.  The elsewhere
    defined parts are parameters: [nparams], the fixed length of the
    buffer; [optimized xs c i], the value the optimization leaves in
    element [i]; [status xs c], the status it reports.  The specification
    leaves open what a call does that breaks a precondition; such a call
    is given no result here. *)
Definition nmsimplex (nparams : nat) (optimized : list F -> D -> nat -> F)
    (status : list F -> D -> Z)
    (model_parameters data : Z) (m : gmap Z cell) : option (Z * gmap Z cell) :=
  if bool_decide (model_parameters = null \/ data = null) then None
  else
    xs ← load_buf m model_parameters nparams;
    c ← load_data m data;
    m' ← store_buf m model_parameters (optimized xs c <$> seq 0 nparams);
    Some (wrap_int (status xs c), m').

Definition is_float_cell (w : bool) (o : option cell) : bool :=
  match o with
  | Some {| writable := b; content := VFloat _ |} => implb w b
  | _ => false
  end.

Definition is_writable (o : option cell) : bool :=
  match o with
  | Some c => writable c
  | None => false
  end.

Definition is_data_cell (o : option cell) : bool :=
  match o with
  | Some {| content := VOpaque _ |} => true
  | _ => false
  end.

(** Modelled from the spec: the preconditions of section 4.1, which the
    prototype cannot express: [model_parameters] is a non-null, mutable
    buffer of [nparams] numbers and [data] a non-null context.  A buffer
    is an object, so it has at least one element. *)
Definition precondition (nparams : nat) (model_parameters data : Z)
    (m : gmap Z cell) : bool :=
  negb (nparams =? 0)%nat
  && negb (bool_decide (model_parameters = null))
  && negb (bool_decide (data = null))
  && forallb (fun i => is_float_cell true (m !! (model_parameters + Z.of_nat i)))
       (seq 0 nparams)
  && is_data_cell (m !! data).

Definition in_buffer (p : Z) (k : nat) (a : Z) : Prop := p <= a < p + Z.of_nat k.

End Memory.

Arguments value : clear implicits.
Arguments cell : clear implicits.

(** A call on concrete memory: two parameters at addresses 100 and 101, a
    context in read-only memory at 200, another number at 300.  The
    optimization moves every parameter by the context value. *)
Definition shift (xs : list Z) (c : Z) (i : nat) : Z := nth i xs 0 + c.

Definition report (xs : list Z) (c : Z) : Z := c.

Definition memory_before : gmap Z (cell Z Z) :=
  <[100 := {| writable := true; content := VFloat 1 |}]>
  (<[101 := {| writable := true; content := VFloat 2 |}]>
  (<[200 := {| writable := false; content := VOpaque 5 |}]>
  (<[300 := {| writable := true; content := VFloat 9 |}]> ∅))).

Definition memory_after : gmap Z (cell Z Z) :=
  <[100 := {| writable := true; content := VFloat 6 |}]>
  (<[101 := {| writable := true; content := VFloat 7 |}]>
  (<[200 := {| writable := false; content := VOpaque 5 |}]>
  (<[300 := {| writable := true; content := VFloat 9 |}]> ∅))).

(** The same call with the context in writable memory. *)
Definition context_writable (m : gmap Z (cell Z Z)) : gmap Z (cell Z Z) :=
  <[200 := {| writable := true; content := VOpaque 5 |}]> m.

End Routine.

(** ** Declarations that are complete stay what they are when more
    tokens follow *)

Module DeclFacts.

Import Lex Decl.

Local Open Scope list_scope.

Lemma parse_specs_app c b ts e t r :
  parse_specs c b ts = Some (t, r) -> r <> [] ->
  parse_specs c b (ts ++ e) = Some (t, r ++ e).
Proof.
  revert c b. induction ts as [|tok ts IH]; intros c b H Hr.
  - simpl in H. destruct b; inversion H; subst. contradiction.
  - destruct tok as [x|x|ch]; simpl in H |- *.
    + destruct (String.eqb x "const"); [eauto|].
      destruct (keyword_base x), b; try discriminate; eauto.
      * inversion H; subst. reflexivity.
      * destruct (is_reserved x); [discriminate|eauto].
    + destruct b; inversion H; subst. reflexivity.
    + destruct b; inversion H; subst. reflexivity.
Qed.

Lemma parse_ptrs_app t ts e t' r :
  parse_ptrs t ts = (t', r) -> r <> [] ->
  parse_ptrs t (ts ++ e) = (t', r ++ e).
Proof.
  revert t. induction ts as [|tok ts IH]; intros t H Hr.
  - simpl in H. inversion H; subst. contradiction.
  - destruct tok as [x|x|ch]; simpl in H |- *.
    + destruct (String.eqb x "const").
      * destruct t; [inversion H; subst; reflexivity | eauto].
      * inversion H; subst. reflexivity.
    + inversion H; subst. reflexivity.
    + destruct (ascii_eq ch "*"); [eauto|]. inversion H; subst. reflexivity.
Qed.

Lemma parse_name_app ts e x r :
  parse_name ts = Some (x, r) -> parse_name (ts ++ e) = Some (x, r ++ e).
Proof.
  destruct ts as [|[y|y|c] ts]; simpl; try discriminate.
  destruct (is_reserved y); [discriminate|]. intros H; inversion H; subst. reflexivity.
Qed.

Lemma parse_name_none_app ts e :
  parse_name ts = None -> ts <> [] -> parse_name (ts ++ e) = None.
Proof.
  intros H Hne. destruct ts as [|[y|y|c] ts]; [contradiction| |reflexivity|reflexivity].
  simpl in H |- *. destruct (is_reserved y); [reflexivity|discriminate].
Qed.

Lemma parse_param_app ts e p r :
  parse_param ts = Some (p, r) -> r <> [] ->
  parse_param (ts ++ e) = Some (p, r ++ e).
Proof.
  unfold parse_param. intros H Hr.
  destruct (parse_specs false None ts) as [[t0 r0]|] eqn:Hs; [|discriminate].
  cbn [mbind option_bind] in H.
  destruct (parse_ptrs t0 r0) as [t r1] eqn:Hp.
  assert (r1 <> []) as Hr1.
  { intros ->. simpl in H. inversion H; subst. contradiction. }
  assert (r0 <> []) as Hr0.
  { intros ->. simpl in Hp. inversion Hp; subst. contradiction. }
  rewrite (parse_specs_app _ _ _ e _ _ Hs Hr0). cbn [mbind option_bind].
  rewrite (parse_ptrs_app _ _ e _ _ Hp Hr1).
  destruct (parse_name r1) as [[x r2]|] eqn:Hn.
  - inversion H; subst. rewrite (parse_name_app _ e _ _ Hn). reflexivity.
  - inversion H; subst. rewrite (parse_name_none_app _ e Hn Hr1). reflexivity.
Qed.

Lemma parse_params_fuel_app f f' ts e ps r :
  parse_params_fuel f ts = Some (ps, r) -> (f <= f')%nat ->
  parse_params_fuel f' (ts ++ e) = Some (ps, r ++ e).
Proof.
  revert f' ts ps r. induction f as [|f IH]; intros f' ts ps r H Hf; [discriminate|].
  destruct f' as [|f']; [lia|]. simpl in H |- *.
  destruct (parse_param ts) as [[p r1]|] eqn:Hp; [|discriminate].
  cbn [mbind option_bind] in H.
  destruct r1 as [|[y|y|c] r']; try discriminate.
  rewrite (parse_param_app _ e _ _ Hp) by discriminate.
  cbn [mbind option_bind app].
  destruct (ascii_eq c ")").
  - inversion H; subst. reflexivity.
  - destruct (ascii_eq c ","); [|discriminate].
    destruct (parse_params_fuel f r') as [[ps' r'']|] eqn:Hrec; [|discriminate].
    cbn [mbind option_bind] in H. inversion H; subst.
    rewrite (IH f' r' ps' r Hrec) by lia. reflexivity.
Qed.

Lemma parse_params_app ts e ps r :
  parse_params ts = Some (ps, r) -> parse_params (ts ++ e) = Some (ps, r ++ e).
Proof.
  unfold parse_params. intros H.
  assert (forall ts0,
    match parse_params_fuel (length ts0) ts0 with
    | Some (ps0, r0) =>
        if decide (ps0 = [ {| p_type := Tbase false Tvoid; p_name := None |} ])
        then Some ([], r0) else Some (ps0, r0)
    | None => None
    end = Some (ps, r) ->
    match parse_params_fuel (length (ts0 ++ e)) (ts0 ++ e) with
    | Some (ps0, r0) =>
        if decide (ps0 = [ {| p_type := Tbase false Tvoid; p_name := None |} ])
        then Some ([], r0) else Some (ps0, r0)
    | None => None
    end = Some (ps, r ++ e)) as Hgen.
  { intros ts0 H0.
    destruct (parse_params_fuel (length ts0) ts0) as [[ps0 r0]|] eqn:Hf; [|discriminate].
    rewrite (parse_params_fuel_app _ (length (ts0 ++ e)) _ e _ _ Hf)
      by (rewrite length_app; lia).
    destruct (decide _); inversion H0; subst; reflexivity. }
  destruct ts as [|[y|y|c] ts'].
  - simpl in H. discriminate.
  - apply (Hgen (TIdent y :: ts')). exact H.
  - apply (Hgen (TNumber y :: ts')). exact H.
  - destruct (ascii_eq c ")") eqn:Hc; [|discriminate].
    inversion H; subst. cbn [app]. rewrite Hc. reflexivity.
Qed.

Lemma skip_body_app d ts e r :
  skip_body d ts = Some r -> skip_body d (ts ++ e) = Some (r ++ e).
Proof.
  revert d. induction ts as [|tok ts IH]; intros d H; [discriminate|].
  destruct tok as [x|x|c]; simpl in H |- *; eauto.
  destruct (ascii_eq c "{"); [eauto|].
  destruct (ascii_eq c "}"); [|eauto].
  destruct d; [inversion H; subst; reflexivity | eauto].
Qed.

Lemma parse_storage_app ts e s r :
  parse_storage ts = (s, r) -> r <> [] ->
  parse_storage (ts ++ e) = (s, r ++ e).
Proof.
  intros H Hr. destruct ts as [|[x|x|c] ts]; simpl in H |- *;
    try (inversion H; subst; (contradiction || reflexivity)).
  destruct (keyword_storage x); inversion H; subst; reflexivity.
Qed.

Lemma parse_decl_app ts e d r :
  parse_decl ts = Some (d, r) -> parse_decl (ts ++ e) = Some (d, r ++ e).
Proof.
  unfold parse_decl. intros H.
  destruct (parse_storage ts) as [st r0] eqn:Hst.
  destruct (parse_specs false None r0) as [[t0 r1]|] eqn:Hs; [|discriminate].
  cbn [mbind option_bind] in H.
  destruct (parse_ptrs t0 r1) as [t r2] eqn:Hp.
  destruct (parse_name r2) as [[x r3]|] eqn:Hn; [|discriminate].
  cbn [mbind option_bind] in H.
  assert (r2 <> []) as Hr2 by (intros ->; discriminate).
  assert (r1 <> []) as Hr1.
  { intros ->. simpl in Hp. inversion Hp; subst. contradiction. }
  assert (r0 <> []) as Hr0 by (intros ->; discriminate).
  rewrite (parse_storage_app _ e _ _ Hst Hr0).
  rewrite (parse_specs_app _ _ _ e _ _ Hs Hr1). cbn [mbind option_bind].
  rewrite (parse_ptrs_app _ _ e _ _ Hp Hr2).
  rewrite (parse_name_app _ e _ _ Hn). cbn [mbind option_bind].
  destruct r3 as [|[y|y|c] r4]; try discriminate. cbn [app].
  destruct (ascii_eq c ";") eqn:E1; [inversion H; subst; reflexivity|].
  destruct (ascii_eq c "(") eqn:E2; [|discriminate].
  destruct (parse_params r4) as [[ps r5]|] eqn:Hps; [|discriminate].
  rewrite (parse_params_app _ e _ _ Hps).
  cbn [mbind option_bind] in H |- *.
  destruct r5 as [|[y|y|c'] r6]; try discriminate. cbn [app].
  destruct (ascii_eq c' ";") eqn:E3; [inversion H; subst; reflexivity|].
  destruct (ascii_eq c' "{") eqn:E4; [|discriminate].
  destruct (skip_body 0 r6) as [r7|] eqn:Hb; [|discriminate].
  rewrite (skip_body_app _ _ e _ Hb).
  cbn [mbind option_bind] in H |- *. inversion H; subst. reflexivity.
Qed.

Lemma parse_unit_fuel_mono f f' ts ds :
  parse_unit_fuel f ts = Some ds -> (f <= f')%nat ->
  parse_unit_fuel f' ts = Some ds.
Proof.
  revert f' ts ds. induction f as [|f IH]; intros f' ts ds H Hf.
  - destruct ts; [|discriminate]. destruct f'; exact H.
  - destruct ts as [|tok ts]; [destruct f'; exact H|].
    destruct f' as [|f']; [lia|]. simpl in H |- *.
    destruct (parse_decl (tok :: ts)) as [[d r]|]; [|discriminate].
    cbn [mbind option_bind] in H |- *.
    destruct (parse_unit_fuel f r) as [ds0|] eqn:Hrec; [|discriminate].
    rewrite (IH f' r ds0 Hrec) by lia. exact H.
Qed.

Lemma parse_unit_fuel_app f f' a b ds ds' :
  parse_unit_fuel f a = Some ds -> parse_unit_fuel f' b = Some ds' ->
  parse_unit_fuel (f + f') (a ++ b) = Some (ds ++ ds').
Proof.
  revert a ds. induction f as [|f IH]; intros a ds Ha Hb.
  - destruct a; [|discriminate]. inversion Ha; subst. exact Hb.
  - destruct a as [|tok a].
    + inversion Ha; subst. apply (parse_unit_fuel_mono f'); [exact Hb|lia].
    + simpl in Ha. simpl plus. simpl app.
      change (tok :: a ++ b) with ((tok :: a) ++ b).
      destruct (parse_decl (tok :: a)) as [[d r]|] eqn:Hd; [|discriminate].
      cbn [mbind option_bind] in Ha.
      destruct (parse_unit_fuel f r) as [ds0|] eqn:Hrec; [|discriminate].
      cbn [mbind option_bind] in Ha. inversion Ha; subst.
      simpl. change (tok :: a ++ b) with ((tok :: a) ++ b).
      rewrite (parse_decl_app _ b _ _ Hd). cbn [mbind option_bind].
      rewrite (IH r ds0 Hrec Hb). reflexivity.
Qed.

(** Declarations that parse on their own parse the same in sequence. *)
Lemma parse_unit_app a b ds ds' :
  parse_unit a = Some ds -> parse_unit b = Some ds' ->
  parse_unit (a ++ b) = Some (ds ++ ds').
Proof.
  unfold parse_unit. intros Ha Hb. rewrite length_app.
  apply parse_unit_fuel_app; assumption.
Qed.

End DeclFacts.

(** ** What including the header does *)

Module HeaderFacts.

Import Source Lex Cpp Decl Header.

Local Open Scope list_scope.

Lemma lex_header : lex nmsimplex_h = Some header_logical_lines.
Proof. vm_compute. reflexivity. Qed.

Lemma tokenize_quoted :
  tokenize (list_ascii_of_string quoted_prototype) = prototype_tokens.
Proof. vm_compute. reflexivity. Qed.

Lemma parse_prototype : parse_unit prototype_tokens = Some [nmsimplex_decl].
Proof. vm_compute. reflexivity. Qed.

Lemma no_quote_or_backslash :
  count_char "034" nmsimplex_h = 0%nat /\ count_char "'" nmsimplex_h = 0%nat
  /\ count_char "\" nmsimplex_h = 0%nat.
Proof. vm_compute. repeat split. Qed.

(** The translation at work on texts other than the header: a comment
    that spans lines, a function with a body, and the prototype without
    its guard, which every inclusion adds again. *)
Example lex_comment_across_lines :
  lex (String.concat (String LF EmptyString) ["a /* b"; "c */ d // e"; "f"])
  = Some [[TIdent "a"; TIdent "d"]; [TIdent "f"]].
Proof. vm_compute. reflexivity. Qed.

Example parse_function_definition :
  map is_definition <$> parse_unit (tokens_of "static int f(int x) { if (x) { x; } } int g(void);")
  = Some [true; false].
Proof. vm_compute. reflexivity. Qed.

Example unguarded_prototype_twice :
  tu_tokens <$> include_times 2 quoted_prototype empty_tunit
  = Some (prototype_tokens ++ prototype_tokens).
Proof. vm_compute. reflexivity. Qed.

Lemma run_cons st l pl r :
  classify l = Some pl ->
  run st (l :: r) = step st pl ≫= fun st' => run st' r.
Proof. intros H. simpl. rewrite H. reflexivity. Qed.

Ltac pp_step pl :=
  rewrite (run_cons _ _ pl) by reflexivity;
  unfold step, push_cond, active, defined;
  cbn [macros conds out mbind option_bind forallb c_taken c_else].

Lemma expand_nil env : expand env [] = [].
Proof. reflexivity. Qed.

(** The interpreter on the text of the file agrees with the reading of the
    file as a function. *)
Lemma include_text_header tu :
  include_text nmsimplex_h tu = Some (include_nmsimplex_h tu).
Proof.
  unfold include_text. rewrite lex_header. unfold header_logical_lines.
  destruct tu as [env toks].
  unfold include_nmsimplex_h, defined. cbn [tu_macros tu_tokens].
  cbn [mbind option_bind].
  unfold guard.
  destruct (env !! "NMSIMPLEX_H") as [old|] eqn:E.
  - pp_step (LDirective (DIfndef "NMSIMPLEX_H")). rewrite E. cbn. reflexivity.
  - pp_step (LDirective (DIfndef "NMSIMPLEX_H")). rewrite E. cbn. rewrite E. cbn.
    rewrite !expand_nil, !app_nil_r. reflexivity.
Qed.

Lemma include_nmsimplex_h_again tu :
  include_nmsimplex_h (include_nmsimplex_h tu) = include_nmsimplex_h tu.
Proof.
  unfold include_nmsimplex_h at 2 3.
  destruct (defined (tu_macros tu) guard) eqn:E.
  - unfold include_nmsimplex_h. rewrite E. reflexivity.
  - unfold include_nmsimplex_h, defined. cbn [tu_macros].
    rewrite lookup_insert_eq. reflexivity.
Qed.

Lemma include_times_header n tu :
  include_times (S n) nmsimplex_h tu = Some (include_nmsimplex_h tu).
Proof.
  revert tu. induction n as [|n IH]; intros tu.
  - cbn [include_times]. rewrite include_text_header. reflexivity.
  - change (include_times (S (S n)) nmsimplex_h tu)
      with (include_text nmsimplex_h tu ≫= include_times (S n) nmsimplex_h).
    rewrite include_text_header. cbn [mbind option_bind].
    rewrite IH, include_nmsimplex_h_again. reflexivity.
Qed.

Lemma expand_no_macro env ts : no_macro env ts = true -> expand env ts = ts.
Proof.
  unfold expand, no_macro. cbn [expand_fuel].
  induction ts as [|t ts IH]; intros H; [reflexivity|].
  destruct t as [x|x|c]; cbn [flat_map idents forallb app] in H |- *.
  - apply andb_prop in H as [Hx Hts].
    unfold defined in Hx. rewrite bool_decide_eq_false_2 by apply not_elem_of_nil.
    destruct (env !! x) as [body|] eqn:E.
    + rewrite bool_decide_eq_true_2 in Hx by eauto. discriminate.
    + cbn [app]. f_equal. apply IH. exact Hts.
  - f_equal. apply IH. exact H.
  - f_equal. apply IH. exact H.
Qed.

Lemma no_macro_insert_guard env :
  no_macro env prototype_tokens = true ->
  no_macro (<[guard := []]> env) prototype_tokens = true.
Proof.
  unfold no_macro, defined. cbn [idents flat_map prototype_tokens app forallb].
  unfold guard. rewrite !lookup_insert_ne by discriminate. intros H; exact H.
Qed.

(** C1: the header's only declaration is the function prototype
    [int nmsimplex(MOT_FLOAT_TYPE* const model_parameters, const void* const data);]:
    line 12 of the file is the quoted text character for character, a
    unit that consists of the header holds exactly the tokens of the quoted
    text, and they declare one function, [nmsimplex], with external
    linkage, two parameters of the quoted types and return type [int];
    nothing else is declared. *)
Theorem nmsimplex_only_interface :
  lines_of nmsimplex_h !! 11%nat = Some quoted_prototype
  /\ tu_tokens <$> header_unit
     = Some (tokenize (list_ascii_of_string quoted_prototype))
  /\ header_decls = Some [nmsimplex_decl]
  /\ (filter (fun d => is_function d = true) <$> header_decls) = Some [nmsimplex_decl]
  /\ d_name nmsimplex_decl = "nmsimplex"
  /\ linkage_of nmsimplex_decl = External
  /\ d_type nmsimplex_decl = Tbase false Tint
  /\ find_param "model_parameters" nmsimplex_decl
     = Some (Tptr true (Tbase false (Tnamed "MOT_FLOAT_TYPE")))
  /\ find_param "data" nmsimplex_decl = Some (Tptr true (Tbase true Tvoid))
  /\ length (params_of nmsimplex_decl) = 2%nat.
Proof. vm_compute. repeat split; reflexivity. Qed.

(** C4: a call of [nmsimplex] has type [int], and the header gives no
    encoding of the value: after comment removal the file holds no
    numeric constant, its only macro has an empty replacement list, it
    declares no enumeration, and its comment block names the author, the
    date, the licence, the maintainer and an address, and nothing else. *)
Theorem nmsimplex_status_is_unspecified_int :
  (ds ← header_decls; call_type ds "nmsimplex") = Some (Tbase false Tint)
  /\ comment_block nmsimplex_h
     = [ "/**"; " * Author = Robbert Harms"; " * Date = 2014-02-05";
         " * License = LGPL v3"; " * Maintainer = Robbert Harms";
         " * Email = robbert.harms@maastrichtuniversity.nl"; " */" ]
  /\ ((fun ls => numbers (concat ls)) <$> lex nmsimplex_h) = Some []
  /\ (map_to_list <$> (tu_macros <$> header_unit)) = Some [(guard, [])]
  /\ ((fun ls => bool_decide ("enum" ∈ idents (concat ls))) <$> lex nmsimplex_h)
     = Some false
  /\ (length <$> header_decls) = Some 1%nat.
Proof. vm_compute. repeat split; reflexivity. Qed.

(** C6: the file is an include guard (lines 1, 2 and 14), a comment block
    (lines 4 to 10, the licence notice), blank lines and one line of code,
    the prototype.  It contains no brace, hence no function body and no
    structure, union or enumeration body; its only directives are those of
    the guard; the one declaration it makes is not a definition. *)
Theorem header_is_declaration_only :
  line_kinds nmsimplex_h
  = [Directive; Directive; Blank; Comment; Comment; Comment; Comment;
     Comment; Comment; Comment; Blank; Code; Blank; Directive]
  /\ lex nmsimplex_h
     = Some [ [TPunct "#"; TIdent "ifndef"; TIdent guard];
              [TPunct "#"; TIdent "define"; TIdent guard];
              []; []; [];
              tokenize (list_ascii_of_string quoted_prototype);
              [];
              [TPunct "#"; TIdent "endif"] ]
  /\ lines_of nmsimplex_h !! 6%nat = Some " * License = LGPL v3"
  /\ count_char "{" nmsimplex_h = 0%nat
  /\ count_char "}" nmsimplex_h = 0%nat
  /\ header_decls = Some [nmsimplex_decl]
  /\ is_definition nmsimplex_decl = false
  /\ (filter (fun d => is_function d = false) <$> header_decls) = Some [].
Proof. vm_compute. repeat split; reflexivity. Qed.

(** C8: the file has 14 lines: 13 line feeds, the last line not being
    terminated by one; exactly one of the lines is code. *)
Theorem header_has_fourteen_lines :
  length (lines_of nmsimplex_h) = 14%nat
  /\ lines_of nmsimplex_h = nmsimplex_h_lines
  /\ count_char LF nmsimplex_h = 13%nat
  /\ String.length nmsimplex_h = 298%nat
  /\ length (filter (fun k => k = Code) (line_kinds nmsimplex_h)) = 1%nat.
Proof. vm_compute. repeat split; reflexivity. Qed.

(** C9: including the header [n + 1] times in a row gives the unit that
    including it once gives, whatever the unit held before.  The first
    inclusion leaves [NMSIMPLEX_H] defined; an inclusion into a unit in
    which [NMSIMPLEX_H] is defined leaves the unit as it is; and the
    tokens of the prototype are added only if [NMSIMPLEX_H] was undefined
    before the first inclusion. *)
Theorem include_idempotent (n : nat) (tu : tunit) :
  include_times (S n) nmsimplex_h tu = include_times 1 nmsimplex_h tu
  /\ include_times (S n) nmsimplex_h tu = Some (include_nmsimplex_h tu)
  /\ include_text nmsimplex_h (include_nmsimplex_h tu) = Some (include_nmsimplex_h tu)
  /\ defined (tu_macros (include_nmsimplex_h tu)) guard = true
  /\ (if defined (tu_macros tu) guard
      then include_text nmsimplex_h tu = Some tu
      else tu_macros <$> include_text nmsimplex_h tu
           = Some (<[guard := []]> (tu_macros tu)))
  /\ tu_tokens (include_nmsimplex_h tu)
     = (if defined (tu_macros tu) guard then tu_tokens tu
        else tu_tokens tu ++ expand (<[guard := []]> (tu_macros tu)) prototype_tokens).
Proof.
  repeat split.
  - rewrite !include_times_header. reflexivity.
  - apply include_times_header.
  - rewrite include_text_header, include_nmsimplex_h_again. reflexivity.
  - unfold include_nmsimplex_h. destruct (defined (tu_macros tu) guard) eqn:E.
    + exact E.
    + unfold defined. cbn [tu_macros]. rewrite lookup_insert_eq. reflexivity.
  - rewrite include_text_header. unfold include_nmsimplex_h.
    destruct (defined (tu_macros tu) guard); reflexivity.
  - unfold include_nmsimplex_h. destruct (defined (tu_macros tu) guard); reflexivity.
Qed.

(** C7: the header neither defines nor removes [MOT_FLOAT_TYPE], as a macro
    or as a type: the name is used by the prototype and is the one type
    name the header leaves undeclared.  What [model_parameters] points to
    is settled by the including unit: [float] in one that has defined the
    name as [float], [double] in one that has defined it as [double]. *)
Theorem MOT_FLOAT_TYPE_comes_from_includer (tu : tunit) :
  include_text nmsimplex_h tu = Some (include_nmsimplex_h tu)
  /\ tu_macros (include_nmsimplex_h tu) !! "MOT_FLOAT_TYPE"
     = tu_macros tu !! "MOT_FLOAT_TYPE"
  /\ bool_decide ("MOT_FLOAT_TYPE" ∈ idents prototype_tokens) = true
  /\ (undeclared_types [] <$> header_decls) = Some ["MOT_FLOAT_TYPE"]
  /\ (filter (fun d => d_storage d = STypedef) <$> header_decls) = Some []
  /\ param_type_in (unit_with_float "float") "model_parameters"
     = Some (Tptr true (Tbase false Tfloat))
  /\ param_type_in (unit_with_float "double") "model_parameters"
     = Some (Tptr true (Tbase false Tdouble))
  /\ param_type_in empty_tunit "model_parameters"
     = Some (Tptr true (Tbase false (Tnamed "MOT_FLOAT_TYPE"))).
Proof.
  split; [apply include_text_header|]. split.
  - unfold include_nmsimplex_h. destruct (defined (tu_macros tu) guard); [reflexivity|].
    cbn [tu_macros]. unfold guard. rewrite lookup_insert_ne by discriminate. reflexivity.
  - vm_compute. repeat split; reflexivity.
Qed.

End HeaderFacts.


(** ** What a call of the routine does *)

Module RoutineFacts.

Import Lex Cpp Decl Routine.

Local Open Scope Z_scope.
Local Open Scope list_scope.

Section Memory.

Context {F D : Type}.

Implicit Types (m : gmap Z (cell F D)) (p a : Z) (vs xs : list F).

Lemma store_float_inv m a v m' :
  store_float m a v = Some m' ->
  m' = <[a := {| writable := true; content := VFloat v |}]> m
  /\ is_writable (m !! a) = true.
Proof.
  unfold store_float, is_writable.
  destruct (m !! a) as [[[] c]|]; try discriminate.
  intros H. inversion H. split; reflexivity.
Qed.

Lemma store_float_is_Some m a v :
  is_writable (m !! a) = true -> is_Some (store_float m a v).
Proof.
  unfold store_float, is_writable.
  destruct (m !! a) as [[[] c]|]; try discriminate; eauto.
Qed.

Lemma store_buf_frame vs : forall m p m' a,
  store_buf m p vs = Some m' -> ~ in_buffer p (length vs) a -> m' !! a = m !! a.
Proof.
  unfold in_buffer. induction vs as [|v vs IH]; intros m p m' a H Ha.
  - inversion H. reflexivity.
  - cbn [store_buf] in H.
    destruct (store_float m p v) as [m1|] eqn:E; [|discriminate].
    cbn [mbind option_bind] in H.
    apply store_float_inv in E as [-> _].
    cbn [length] in Ha.
    rewrite (IH _ _ _ a H) by lia.
    apply lookup_insert_ne. lia.
Qed.

Lemma store_buf_dom vs : forall m p m',
  store_buf m p vs = Some m' -> dom m' = dom m.
Proof.
  induction vs as [|v vs IH]; intros m p m' H.
  - inversion H. reflexivity.
  - cbn [store_buf] in H.
    destruct (store_float m p v) as [m1|] eqn:E; [|discriminate].
    cbn [mbind option_bind] in H.
    apply store_float_inv in E as [-> Hc].
    rewrite (IH _ _ _ H), dom_insert_L.
    apply subseteq_union_1_L, singleton_subseteq_l, elem_of_dom.
    unfold is_writable in Hc. destruct (m !! p); [eauto|discriminate].
Qed.

Lemma store_buf_load vs : forall m p m',
  store_buf m p vs = Some m' -> load_buf m' p (length vs) = Some vs.
Proof.
  induction vs as [|v vs IH]; intros m p m' H; [reflexivity|].
  cbn [store_buf] in H.
  destruct (store_float m p v) as [m1|] eqn:E; [|discriminate].
  cbn [mbind option_bind] in H.
  apply store_float_inv in E as [-> _].
  cbn [length load_buf]. unfold load_float.
  rewrite (store_buf_frame _ _ _ _ p H) by (unfold in_buffer; lia).
  rewrite lookup_insert_eq. cbn [mbind option_bind].
  rewrite (IH _ _ _ H). reflexivity.
Qed.

Lemma load_buf_length k : forall m p xs,
  load_buf m p k = Some xs -> length xs = k.
Proof.
  induction k as [|k IH]; intros m p xs H.
  - inversion H. reflexivity.
  - cbn [load_buf] in H.
    destruct (load_float m p) as [v|]; [|discriminate].
    cbn [mbind option_bind] in H.
    destruct (load_buf m (p + 1) k) as [ws|] eqn:E; [|discriminate].
    inversion H. cbn [length]. f_equal. eauto.
Qed.

Lemma load_float_is_Some m a :
  is_Some (load_float m a) <-> is_float_cell false (m !! a) = true.
Proof.
  unfold load_float, is_float_cell.
  destruct (m !! a) as [[w []]|]; cbn; split; intros H;
    try (destruct H; discriminate); try discriminate; eauto.
Qed.

Lemma load_buf_is_Some k : forall m p,
  is_Some (load_buf m p k) <->
  (forall i, (i < k)%nat -> is_float_cell false (m !! (p + Z.of_nat i)) = true).
Proof.
  induction k as [|k IH]; intros m p.
  - split; [intros _ i Hi; lia | intros _; eexists; reflexivity].
  - cbn [load_buf]. split.
    + intros [xs H] i Hi.
      destruct (load_float m p) as [v|] eqn:E; [|discriminate].
      cbn [mbind option_bind] in H.
      destruct (load_buf m (p + 1) k) as [ws|] eqn:E'; [|discriminate].
      destruct i as [|i].
      * replace (p + Z.of_nat 0) with p by lia.
        apply load_float_is_Some. eauto.
      * replace (p + Z.of_nat (S i)) with (p + 1 + Z.of_nat i) by lia.
        apply (proj1 (IH m (p + 1))); [eauto | lia].
    + intros H.
      destruct (proj2 (load_float_is_Some m p)) as [v ->].
      { specialize (H 0%nat). replace (p + Z.of_nat 0) with p in H by lia.
        apply H. lia. }
      destruct (proj2 (IH m (p + 1))) as [ws ->].
      { intros i Hi. replace (p + 1 + Z.of_nat i) with (p + Z.of_nat (S i)) by lia.
        apply H. lia. }
      eexists. reflexivity.
Qed.

Lemma store_buf_is_Some vs : forall m p,
  is_Some (store_buf m p vs) <->
  (forall i, (i < length vs)%nat -> is_writable (m !! (p + Z.of_nat i)) = true).
Proof.
  induction vs as [|v vs IH]; intros m p.
  - split; [intros _ i Hi; cbn in Hi; lia | intros _; eexists; reflexivity].
  - cbn [store_buf length]. split.
    + intros [m' H] i Hi.
      destruct (store_float m p v) as [m1|] eqn:E; [|discriminate].
      cbn [mbind option_bind] in H.
      apply store_float_inv in E as [-> Hc].
      destruct i as [|i].
      * replace (p + Z.of_nat 0) with p by lia. exact Hc.
      * assert (is_Some (store_buf
                  (<[p := {| writable := true; content := VFloat v |}]> m) (p + 1) vs))
          as Hs by eauto.
        apply (proj1 (IH _ _)) with (i := i) in Hs; [|lia].
        rewrite lookup_insert_ne in Hs by lia.
        replace (p + Z.of_nat (S i)) with (p + 1 + Z.of_nat i) by lia. exact Hs.
    + intros H.
      destruct (store_float_is_Some m p v) as [m1 E].
      { specialize (H 0%nat). replace (p + Z.of_nat 0) with p in H by lia.
        apply H. lia. }
      rewrite E. cbn [mbind option_bind].
      apply store_float_inv in E as [-> _].
      apply IH. intros i Hi. rewrite lookup_insert_ne by lia.
      replace (p + 1 + Z.of_nat i) with (p + Z.of_nat (S i)) by lia.
      apply H. lia.
Qed.

Lemma float_cell_weaken (o : option (cell F D)) : is_float_cell true o = true -> is_float_cell false o = true.
Proof. unfold is_float_cell. destruct o as [[w []]|]; auto. Qed.

Lemma float_cell_writable (o : option (cell F D)) :
  is_float_cell true o = true -> is_writable o = true.
Proof.
  unfold is_float_cell, is_writable. destruct o as [[[] []]|]; cbn; auto.
Qed.

Lemma float_cell_not_data (o : option (cell F D)) : is_float_cell false o = true -> is_data_cell o = false.
Proof. unfold is_float_cell, is_data_cell. destruct o as [[w []]|]; auto; discriminate. Qed.

Lemma load_data_is_Some m a : is_Some (load_data m a) <-> is_data_cell (m !! a) = true.
Proof.
  unfold load_data, is_data_cell.
  destruct (m !! a) as [[w []]|]; cbn; split; intros H;
    try (destruct H; discriminate); try discriminate; eauto.
Qed.

(** A context cell does not lie inside a buffer of numbers. *)
Lemma data_outside_buffer m p k d :
  is_Some (load_buf m p k) -> is_data_cell (m !! d) = true -> ~ in_buffer p k d.
Proof.
  unfold in_buffer. intros Hb Hd Hin.
  pose proof (proj1 (load_buf_is_Some k m p) Hb (Z.to_nat (d - p))) as Hc.
  replace (p + Z.of_nat (Z.to_nat (d - p))) with d in Hc by lia.
  rewrite (float_cell_not_data _ (Hc ltac:(lia))) in Hd. discriminate.
Qed.

Lemma wrap_int_range z : - 2 ^ 31 <= wrap_int z < 2 ^ 31.
Proof.
  unfold wrap_int.
  pose proof (Z.mod_pos_bound (z + 2 ^ 31) (2 ^ 32) ltac:(lia)). lia.
Qed.

Lemma nmsimplex_inv nparams (optimized : list F -> D -> nat -> F)
    (status : list F -> D -> Z) p d m r m' :
  nmsimplex nparams optimized status p d m = Some (r, m') ->
  p <> null /\ d <> null /\
  exists xs c,
    load_buf m p nparams = Some xs /\ load_data m d = Some c
    /\ store_buf m p (optimized xs c <$> seq 0 nparams) = Some m'
    /\ r = wrap_int (status xs c).
Proof.
  unfold nmsimplex. case_bool_decide as Hn; [discriminate|]. intros H.
  destruct (load_buf m p nparams) as [xs|] eqn:Hx; [|discriminate].
  cbn [mbind option_bind] in H.
  destruct (load_data m d) as [c|] eqn:Hc; [|discriminate].
  cbn [mbind option_bind] in H.
  destruct (store_buf m p _) as [m1|] eqn:Hs; [|discriminate].
  cbn [mbind option_bind] in H. inversion H; subst.
  split; [tauto|]. split; [tauto|]. exists xs, c. repeat split; assumption.
Qed.

Lemma optimized_length (optimized : list F -> D -> nat -> F) xs c k :
  length (optimized xs c <$> seq 0 k) = k.
Proof. rewrite length_fmap. apply length_seq. Qed.

End Memory.

Section Claims.

Context {F D : Type}.
Context (nparams : nat) (optimized : list F -> D -> nat -> F)
        (status : list F -> D -> Z).

(** C2: a call that returns has changed memory only inside the buffer at
    [model_parameters]: every address outside it holds what it held, no
    cell was added or removed, the buffer is where it was, with its
    length, and holds the optimized values.  In the prototype,
    [model_parameters] is a const pointer to a type that is not const, so
    that stores through it are accepted. *)
Theorem nmsimplex_mutates_only_parameters
    (p d : Z) (m m' : gmap Z (cell F D)) (r : Z) :
  nmsimplex nparams optimized status p d m = Some (r, m') ->
  (exists xs c,
      load_buf m p nparams = Some xs /\ load_data m d = Some c
      /\ load_buf m' p nparams = Some (optimized xs c <$> seq 0 nparams)
      /\ r = wrap_int (status xs c))
  /\ (forall a, ~ in_buffer p nparams a -> m' !! a = m !! a)
  /\ dom m' = dom m
  /\ Header.param_type_in empty_tunit "model_parameters"
     = Some (Tptr true (Tbase false (Tnamed "MOT_FLOAT_TYPE")))
  /\ store_through (Tptr true (Tbase false (Tnamed "MOT_FLOAT_TYPE"))) = true.
Proof.
  intros H. apply nmsimplex_inv in H as (_ & _ & xs & c & Hx & Hc & Hs & ->).
  split; [|split; [|split; [|split; [vm_compute; reflexivity|reflexivity]]]].
  - exists xs, c. repeat split; try assumption.
    pose proof (store_buf_load _ _ _ _ Hs) as Hl.
    rewrite optimized_length in Hl. exact Hl.
  - intros a Ha. apply (store_buf_frame _ _ _ _ _ Hs).
    rewrite optimized_length. exact Ha.
  - exact (store_buf_dom _ _ _ _ Hs).
Qed.

(** C3: a call that returns has left the cell behind [data] as it was,
    whether or not that cell lies in writable memory.  In the prototype,
    [data] is a const pointer to const void: as declared it can be neither
    read nor stored through, and after a conversion to a pointer to a
    const object type it can be read through and still not stored
    through.  (A conversion that drops the qualifier is not covered.) *)
Theorem nmsimplex_leaves_data_alone
    (p d : Z) (m m' : gmap Z (cell F D)) (r : Z) :
  nmsimplex nparams optimized status p d m = Some (r, m') ->
  m' !! d = m !! d
  /\ load_data m' d = load_data m d
  /\ Header.param_type_in empty_tunit "data" = Some (Tptr true (Tbase true Tvoid))
  /\ (Header.param_type_in empty_tunit "data" ≫= pointee_const) = Some true
  /\ store_through (Tptr true (Tbase true Tvoid)) = false
  /\ load_through (Tptr true (Tbase true Tvoid)) = false
  /\ (forall b, b <> Tvoid ->
        store_through (retarget (Tptr true (Tbase true Tvoid)) b) = false
        /\ load_through (retarget (Tptr true (Tbase true Tvoid)) b) = true).
Proof.
  intros H. apply nmsimplex_inv in H as (_ & _ & xs & c & Hx & Hc & Hs & ->).
  assert (m' !! d = m !! d) as Hd.
  { apply (store_buf_frame _ _ _ _ _ Hs). rewrite optimized_length.
    apply (data_outside_buffer m); [eauto|].
    apply load_data_is_Some. eauto. }
  split; [exact Hd|]. split; [unfold load_data; rewrite Hd; reflexivity|].
  split; [vm_compute; reflexivity|]. split; [vm_compute; reflexivity|].
  split; [reflexivity|]. split; [reflexivity|].
  intros b Hb. destruct b; try contradiction; split; reflexivity.
Qed.

(** C5: under the preconditions (the buffer behind [model_parameters] is
    not null and consists of [nparams] writable cells that hold numbers,
    at least one, and [data] is not null and points to a context) a call
    has a result, and the guarantees hold of it: the status is an [int],
    the buffer holds the optimized values, and nothing outside the
    buffer, the context in particular, has changed.  Nothing is stated
    about a call that breaks a precondition.  Of the preconditions the
    prototype expresses the qualifiers only: what [model_parameters]
    points to is not const, what [data] points to is. *)
Theorem nmsimplex_guarantees_under_precondition (p d : Z) (m : gmap Z (cell F D)) :
  precondition nparams p d m = true ->
  (exists r m' xs c,
      nmsimplex nparams optimized status p d m = Some (r, m')
      /\ load_buf m p nparams = Some xs /\ load_data m d = Some c
      /\ r = wrap_int (status xs c) /\ - 2 ^ 31 <= r < 2 ^ 31
      /\ load_buf m' p nparams = Some (optimized xs c <$> seq 0 nparams)
      /\ (forall a, ~ in_buffer p nparams a -> m' !! a = m !! a)
      /\ m' !! d = m !! d
      /\ dom m' = dom m)
  /\ (Header.param_type_in empty_tunit "model_parameters" ≫= pointee_const)
     = Some false
  /\ (Header.param_type_in empty_tunit "data" ≫= pointee_const) = Some true.
Proof.
  intros Hpre. split; [|split; vm_compute; reflexivity].
  unfold precondition in Hpre.
  rewrite !andb_true_iff, !negb_true_iff, forallb_forall in Hpre.
  rewrite !bool_decide_eq_false in Hpre.
  destruct Hpre as [[[[_ Hp] Hd] Hb] Hc].
  destruct (proj2 (load_buf_is_Some nparams m p)) as [xs Hx].
  { intros i Hi. apply float_cell_weaken, Hb, in_seq. lia. }
  destruct (proj2 (load_data_is_Some m d) Hc) as [c Hl].
  destruct (proj2 (store_buf_is_Some (optimized xs c <$> seq 0 nparams) m p))
    as [m' Hs].
  { intros i Hi. rewrite optimized_length in Hi.
    apply float_cell_writable, Hb, in_seq. lia. }
  exists (wrap_int (status xs c)), m', xs, c.
  split.
  { unfold nmsimplex. rewrite bool_decide_eq_false_2 by tauto.
    rewrite Hx. cbn [mbind option_bind]. rewrite Hl. cbn [mbind option_bind].
    rewrite Hs. reflexivity. }
  split; [exact Hx|]. split; [exact Hl|]. split; [reflexivity|].
  split; [apply wrap_int_range|].
  assert (forall a, ~ in_buffer p nparams a -> m' !! a = m !! a) as Hf.
  { intros a Ha. apply (store_buf_frame _ _ _ _ _ Hs).
    rewrite optimized_length. exact Ha. }
  split.
  { pose proof (store_buf_load _ _ _ _ Hs) as Hload.
    rewrite optimized_length in Hload. exact Hload. }
  split; [exact Hf|]. split.
  { apply Hf, (data_outside_buffer m); [eauto|exact Hc]. }
  exact (store_buf_dom _ _ _ _ Hs).
Qed.

End Claims.

Lemma nmsimplex_mutates_only_parameters_witness :
  load_buf memory_after 100 2 = Some [6; 7]
  /\ (forall a, ~ in_buffer 100 2 a -> memory_after !! a = memory_before !! a)
  /\ dom memory_after = dom memory_before.
Proof.
  destruct (nmsimplex_mutates_only_parameters 2 shift report 100 200
              memory_before memory_after 5)
    as ((xs & c & Hx & Hc & Hl & _) & Hf & Hd & _).
  - vm_compute. reflexivity.
  - split; [|exact (conj Hf Hd)].
    rewrite Hl. vm_compute in Hx, Hc.
    injection Hx as <-. injection Hc as <-. reflexivity.
Defined.

Lemma nmsimplex_leaves_data_alone_witness :
  context_writable memory_after !! 200 = context_writable memory_before !! 200.
Proof.
  apply (nmsimplex_leaves_data_alone 2 shift report 100 200
           (context_writable memory_before) (context_writable memory_after) 5).
  vm_compute. reflexivity.
Defined.

Lemma nmsimplex_guarantees_under_precondition_witness :
  exists r m' xs c,
    nmsimplex 2 shift report 100 200 memory_before = Some (r, m')
    /\ load_buf memory_before 100 2 = Some xs /\ load_data memory_before 200 = Some c
    /\ r = wrap_int (report xs c) /\ - 2 ^ 31 <= r < 2 ^ 31
    /\ load_buf m' 100 2 = Some (shift xs c <$> seq 0 2)
    /\ (forall a, ~ in_buffer 100 2 a -> m' !! a = memory_before !! a)
    /\ m' !! 200 = memory_before !! 200
    /\ dom m' = dom memory_before.
Proof.
  apply (nmsimplex_guarantees_under_precondition 2 shift report 100 200 memory_before).
  vm_compute. reflexivity.
Defined.

(** The memory lets a context be overwritten: a store at the address of a
    context in writable memory succeeds and replaces it, so that leaving
    [data] alone is a property of the routine and not of the memory. *)
Example store_reaches_context :
  (fun m => m !! 200) <$> store_float (context_writable memory_before) 200 0
  = Some (Some {| writable := true; content := VFloat 0 |}).
Proof. vm_compute. reflexivity. Qed.

End RoutineFacts.

(** ** The header at any point of a unit *)

Module InclusionFacts.

Import Source Lex Cpp Decl Header HeaderFacts.

Local Open Scope list_scope.

Lemma run_header st :
  run st header_logical_lines
  = Some (if active st && negb (defined (macros st) guard)
          then {| macros := <[guard := []]> (macros st);
                  conds := conds st;
                  out := out st
                         ++ expand (<[guard := []]> (macros st)) prototype_tokens |}
          else st).
Proof.
  unfold header_logical_lines.
  destruct st as [env cs o]. unfold active, defined, guard. cbn [macros conds out].
  destruct (forallb c_taken cs) eqn:A; destruct (env !! "NMSIMPLEX_H") as [old|] eqn:E.
  all: pp_step (LDirective (DIfndef "NMSIMPLEX_H")); rewrite E;
    repeat (cbn; rewrite ?E, ?A, ?expand_nil, ?app_nil_r); try reflexivity.
Qed.

Lemma run_app ls1 : forall st ls2,
  run st (ls1 ++ ls2) = run st ls1 ≫= fun st' => run st' ls2.
Proof.
  induction ls1 as [|l ls1 IH]; intros st ls2; [reflexivity|].
  cbn [app run]. destruct (classify l) as [pl|]; [|reflexivity].
  cbn [mbind option_bind]. destruct (step st pl) as [st'|]; [|reflexivity].
  cbn [mbind option_bind]. apply IH.
Qed.

Lemma no_macro_insert env x body ts :
  x ∉ idents ts -> no_macro env ts = true -> no_macro (<[x := body]> env) ts = true.
Proof.
  unfold no_macro. rewrite !forallb_forall. intros Hx H y Hy.
  unfold defined. rewrite lookup_insert_ne.
  - apply H. exact Hy.
  - intros ->. apply Hx, list_elem_of_In. exact Hy.
Qed.

Lemma classify_define x body :
  has_punct "(" (firstn 1 body) = false ->
  classify (define_line x body) = Some (LDirective (DDefine x body)).
Proof. intros H. unfold define_line. cbn. rewrite H. reflexivity. Qed.

(** X1: in a unit whose macros are object-like and use no [##] operator,
    at any point of the unit, whatever conditional groups are open there
    and whether they are taken or skipped, preprocessing the lines of the
    header leaves the open groups as they are.  Inside a skipped group, or
    with [NMSIMPLEX_H] defined, the lines change nothing at all; otherwise
    they define [NMSIMPLEX_H] and add the tokens of the prototype after
    macro replacement.  (A unit with a function-like macro named as a
    word of the prototype is outside this statement.) *)
Theorem header_in_any_state (st : pp_state) :
  (lex nmsimplex_h ≫= run st)
  = Some (if active st && negb (defined (macros st) guard)
          then {| macros := <[guard := []]> (macros st);
                  conds := conds st;
                  out := out st
                         ++ expand (<[guard := []]> (macros st)) prototype_tokens |}
          else st).
Proof. rewrite lex_header. cbn [mbind option_bind]. apply run_header. Qed.

(** X2: into every unit whose macros are object-like and use no [##]
    operator, the header is included without a preprocessing error; the
    inclusion keeps every token of the unit and adds only behind them,
    keeps every macro of the unit with its replacement list, and leaves
    every macro other than [NMSIMPLEX_H] as it was.  (A unit with a
    function-like macro named as a word of the prototype is outside this
    statement.) *)
Theorem inclusion_only_adds (tu : tunit) :
  exists tu' added,
    include_text nmsimplex_h tu = Some tu'
    /\ tu_tokens tu' = tu_tokens tu ++ added
    /\ tu_macros tu ⊆ tu_macros tu'
    /\ delete guard (tu_macros tu') = delete guard (tu_macros tu)
    /\ dom (tu_macros tu') = dom (tu_macros tu) ∪ {[guard]}.
Proof.
  rewrite include_text_header. unfold include_nmsimplex_h, defined.
  destruct (tu_macros tu !! guard) as [old|] eqn:E.
  - rewrite bool_decide_eq_true_2 by eauto.
    exists tu, []. rewrite app_nil_r. repeat split; try reflexivity.
    symmetry. rewrite (comm_L (∪)).
    apply subseteq_union_1_L, singleton_subseteq_l, elem_of_dom. eauto.
  - rewrite bool_decide_eq_false_2 by (intros [? ?]; discriminate).
    eexists _, _. split; [reflexivity|]. cbn [tu_macros tu_tokens].
    split; [reflexivity|]. split; [apply insert_subseteq; exact E|].
    split; [apply delete_insert_eq|].
    rewrite dom_insert_L. apply (comm_L (∪)).
Qed.

Lemma include_undef_guard tu :
  include_text undef_guard tu
  = Some {| tu_macros := delete guard (tu_macros tu); tu_tokens := tu_tokens tu |}.
Proof.
  unfold include_text.
  replace (lex undef_guard) with (Some [[TPunct "#"; TIdent "undef"; TIdent guard]])
    by (vm_compute; reflexivity).
  reflexivity.
Qed.

(** X4: the guard protects only as long as its macro is defined: after
    [#undef NMSIMPLEX_H] a further inclusion adds the tokens of the
    prototype once more and defines [NMSIMPLEX_H] again. *)
Theorem undef_then_include_again (tu : tunit) :
  (tu1 ← include_text nmsimplex_h tu;
   tu2 ← include_text undef_guard tu1;
   include_text nmsimplex_h tu2)
  = Some {| tu_macros := <[guard := []]> (tu_macros tu);
            tu_tokens :=
              (if defined (tu_macros tu) guard then tu_tokens tu
               else tu_tokens tu
                    ++ expand (<[guard := []]> (tu_macros tu)) prototype_tokens)
              ++ expand (<[guard := []]> (tu_macros tu)) prototype_tokens |}.
Proof.
  rewrite include_text_header. cbn [mbind option_bind].
  rewrite include_undef_guard. cbn [mbind option_bind].
  rewrite include_text_header. unfold include_nmsimplex_h at 1.
  unfold defined at 1. cbn [tu_macros tu_tokens].
  rewrite lookup_delete_eq.
  rewrite bool_decide_eq_false_2 by (intros [? ?]; discriminate).
  rewrite insert_delete_eq.
  unfold include_nmsimplex_h.
  destruct (defined (tu_macros tu) guard); cbn [tu_macros tu_tokens].
  - reflexivity.
  - rewrite insert_insert_eq. reflexivity.
Qed.

Lemma parse_specs_type_word b r c :
  type_word b = true ->
  parse_specs false None (TIdent b :: TPunct c :: r)
  = Some (Tbase false (base_of b), TPunct c :: r).
Proof.
  unfold type_word, base_of. intros H.
  apply andb_prop in H as [Hc Hk]. apply negb_true_iff in Hc.
  cbn [parse_specs]. rewrite Hc.
  destruct (keyword_base b) as [k|] eqn:K.
  - reflexivity.
  - rewrite bool_decide_eq_false_2 in Hk by (intros [? ?]; discriminate).
    rewrite orb_false_l in Hk. apply negb_true_iff in Hk. rewrite Hk. reflexivity.
Qed.

Lemma not_defined_lookup (env : gmap string (list token)) x :
  negb (defined env x) = true -> env !! x = None.
Proof.
  unfold defined. intros H. apply negb_true_iff, bool_decide_eq_false in H.
  destruct (env !! x); [exfalso; eauto|reflexivity].
Qed.

(** Macro replacement on line 12 when [MOT_FLOAT_TYPE] is the one word of
    the line that is a macro, and stands for a word that is none. *)
Lemma expand_prototype_float (env : gmap string (list token)) (b : string) :
  env !! guard = None ->
  env !! "MOT_FLOAT_TYPE" = Some [TIdent b] ->
  env !! b = None ->
  String.eqb b guard = false ->
  forallb (fun x => negb (defined env x)) fixed_words = true ->
  expand (<[guard := []]> env) prototype_tokens
  = [ TIdent "int"; TIdent "nmsimplex"; TPunct "(";
      TIdent b; TPunct "*"; TIdent "const";
      TIdent "model_parameters"; TPunct ",";
      TIdent "const"; TIdent "void"; TPunct "*"; TIdent "const";
      TIdent "data"; TPunct ")"; TPunct ";" ].
Proof.
  intros Hg Hf Hb Hbg Hfix.
  cbn [forallb fixed_words] in Hfix.
  repeat (apply andb_prop in Hfix as [?%not_defined_lookup Hfix]).
  assert (b <> "MOT_FLOAT_TYPE") as Hbf by (intros ->; congruence).
  apply String.eqb_neq in Hbg.
  unfold expand. rewrite (map_size_insert_None _ _ _ Hg).
  unfold guard in *.
  cbn [expand_fuel flat_map prototype_tokens app].
  rewrite !bool_decide_eq_false_2 by apply not_elem_of_nil.
  rewrite !lookup_insert_ne by discriminate.
  repeat match goal with H : _ !! _ = _ |- _ => rewrite H end.
  cbn [flat_map app].
  rewrite bool_decide_eq_false_2 by (rewrite list_elem_of_singleton; exact Hbf).
  rewrite lookup_insert_ne by congruence. rewrite Hb. reflexivity.
Qed.

Lemma parse_param_type_word b r :
  type_word b = true ->
  parse_param
    (TIdent b :: TPunct "*" :: TIdent "const" :: TIdent "model_parameters" :: r)
  = Some ({| p_type := Tptr true (Tbase false (base_of b));
             p_name := Some "model_parameters" |}, r).
Proof.
  intros Hw. unfold parse_param. rewrite (parse_specs_type_word _ _ _ Hw).
  reflexivity.
Qed.

Lemma parse_unit_single t ts d :
  parse_decl (t :: ts) = Some (d, []) -> parse_unit (t :: ts) = Some [d].
Proof.
  intros H. unfold parse_unit. cbn [length parse_unit_fuel]. rewrite H.
  cbn [mbind option_bind]. destruct (length ts); reflexivity.
Qed.

Lemma parse_float_prototype b :
  type_word b = true ->
  parse_unit
    [ TIdent "int"; TIdent "nmsimplex"; TPunct "(";
      TIdent b; TPunct "*"; TIdent "const";
      TIdent "model_parameters"; TPunct ",";
      TIdent "const"; TIdent "void"; TPunct "*"; TIdent "const";
      TIdent "data"; TPunct ")"; TPunct ";" ]
  = Some [nmsimplex_decl_for (base_of b)].
Proof.
  intros Hw. apply parse_unit_single. unfold parse_decl.
  cbn -[parse_param].
  rewrite (parse_param_type_word b _ Hw).
  reflexivity.
Qed.

(** X3: in a unit that has defined [MOT_FLOAT_TYPE] as a macro for the
    type word [b], where [b] and the other words of the prototype are not
    macros and [NMSIMPLEX_H] is not defined, including the header declares
    [nmsimplex] with [model_parameters] a const pointer to the type that
    [b] names, and declares nothing else. *)
Theorem float_macro_sets_pointee (tu : tunit) (b : string) :
  tu_macros tu !! guard = None ->
  tu_macros tu !! "MOT_FLOAT_TYPE" = Some [TIdent b] ->
  tu_macros tu !! b = None ->
  String.eqb b guard = false ->
  type_word b = true ->
  forallb (fun x => negb (defined (tu_macros tu) x)) fixed_words = true ->
  added_decls tu = Some [nmsimplex_decl_for (base_of b)].
Proof.
  intros Hg Hf Hb Hbg Hw Hfix. unfold added_decls.
  rewrite include_text_header. cbn [mbind option_bind].
  unfold include_nmsimplex_h, defined. rewrite Hg.
  rewrite bool_decide_eq_false_2 by (intros [? ?]; discriminate).
  cbn [tu_macros tu_tokens]. rewrite drop_app_length.
  rewrite (expand_prototype_float _ b Hg Hf Hb Hbg Hfix).
  apply parse_float_prototype. exact Hw.
Qed.

Lemma float_macro_sets_pointee_witness :
  added_decls half_unit = Some [nmsimplex_decl_for (Tnamed "half")].
Proof.
  apply (float_macro_sets_pointee half_unit "half"); vm_compute; reflexivity.
Defined.

Lemma undeclared_types_app known ds : forall d,
  undeclared_types known (ds ++ [d])
  = undeclared_types known ds
    ++ filter (fun x => x ∉ typedef_names ds ++ known) (decl_type_names d).
Proof.
  revert known. induction ds as [|d0 ds IH]; intros known d.
  - cbn [app undeclared_types typedef_names flat_map]. rewrite app_nil_r. reflexivity.
  - cbn [app undeclared_types]. rewrite IH, <- app_assoc. f_equal. f_equal.
    apply list_filter_iff. intros x.
    cbn [typedef_names flat_map].
    destruct (d_storage d0); cbn [app]; rewrite ?elem_of_app, ?elem_of_cons;
      try reflexivity.
    unfold typedef_names. rewrite ?elem_of_app, ?elem_of_cons. tauto.
Qed.

(** X5: the prototype uses [MOT_FLOAT_TYPE] as a type name without declaring
    it.  Put behind any declarations [ds], the declaration of [nmsimplex]
    adds [MOT_FLOAT_TYPE] to the undeclared type names exactly when [ds]
    has no [typedef] of that name, and adds no other name. *)
Theorem prototype_needs_float_type (known : list string) (ds : list ext_decl) :
  undeclared_types known (ds ++ [nmsimplex_decl])
  = undeclared_types known ds
    ++ (if bool_decide ("MOT_FLOAT_TYPE" ∈ typedef_names ds ++ known)
        then [] else ["MOT_FLOAT_TYPE"]).
Proof.
  rewrite undeclared_types_app. f_equal.
  change (decl_type_names nmsimplex_decl) with ["MOT_FLOAT_TYPE"].
  rewrite filter_cons, filter_nil.
  destruct (decide ("MOT_FLOAT_TYPE" ∉ typedef_names ds ++ known)) as [H|H].
  - rewrite bool_decide_eq_false_2 by exact H. reflexivity.
  - rewrite bool_decide_eq_true_2; [reflexivity|].
    destruct (decide ("MOT_FLOAT_TYPE" ∈ typedef_names ds ++ known)); tauto.
Qed.

Lemma run_lines_define_first x body ls tu :
  has_punct "(" (firstn 1 body) = false ->
  run_lines (define_line x body :: ls) tu
  = match tu_macros tu !! x with
    | Some old => if decide (old = body) then run_lines ls tu else None
    | None => run_lines ls {| tu_macros := <[x := body]> (tu_macros tu);
                              tu_tokens := tu_tokens tu |}
    end.
Proof.
  intros Hb. unfold run_lines. cbn [run]. rewrite (classify_define _ _ Hb).
  cbn [mbind option_bind step active conds forallb macros out].
  destruct (tu_macros tu !! x) as [old|]; [|reflexivity].
  destruct (decide (old = body)); reflexivity.
Qed.

Lemma run_lines_define_last x body tu :
  has_punct "(" (firstn 1 body) = false ->
  run_lines (header_logical_lines ++ [define_line x body]) tu
  = match tu_macros (include_nmsimplex_h tu) !! x with
    | Some old => if decide (old = body) then Some (include_nmsimplex_h tu) else None
    | None => Some {| tu_macros := <[x := body]> (tu_macros (include_nmsimplex_h tu));
                      tu_tokens := tu_tokens (include_nmsimplex_h tu) |}
    end.
Proof.
  intros Hb. unfold run_lines. rewrite run_app, run_header.
  cbn [mbind option_bind active conds forallb macros out andb run].
  rewrite (classify_define _ _ Hb). cbn [mbind option_bind].
  unfold include_nmsimplex_h. destruct tu as [env toks]. cbn [tu_macros tu_tokens].
  destruct (defined env guard); cbn [negb step active conds forallb macros out
    tu_macros tu_tokens].
  - destruct (env !! x) as [old|]; [|reflexivity].
    destruct (decide (old = body)); reflexivity.
  - destruct (<[guard := []]> env !! x) as [old|]; [|reflexivity].
    destruct (decide (old = body)); reflexivity.
Qed.

Lemma run_lines_header tu :
  run_lines header_logical_lines tu = Some (include_nmsimplex_h tu).
Proof.
  unfold run_lines. rewrite run_header.
  cbn [mbind option_bind active conds forallb macros out andb].
  unfold include_nmsimplex_h. destruct tu as [env toks]. cbn [tu_macros tu_tokens].
  destruct (defined env guard); reflexivity.
Qed.

(** X6: a [#define] of a macro other than [NMSIMPLEX_H] whose name is not a
    word of the prototype can stand before or behind the lines of the
    header: in a unit where no word of the prototype is a macro, both
    orders give the same unit, or fail alike when the macro is already
    defined otherwise. *)
Theorem unrelated_define_commutes (tu : tunit) (x : string) (body : list token) :
  String.eqb x guard = false ->
  bool_decide (x ∈ idents prototype_tokens) = false ->
  has_punct "(" (firstn 1 body) = false ->
  no_macro (tu_macros tu) prototype_tokens = true ->
  (ls ← lex nmsimplex_h; run_lines (define_line x body :: ls) tu)
  = (ls ← lex nmsimplex_h; run_lines (ls ++ [define_line x body]) tu).
Proof.
  intros Hxg Hxp Hb Hm. rewrite lex_header. cbn [mbind option_bind].
  rewrite (run_lines_define_first _ _ _ _ Hb), (run_lines_define_last _ _ _ Hb).
  rewrite !run_lines_header.
  apply String.eqb_neq in Hxg. apply bool_decide_eq_false in Hxp.
  assert (tu_macros (include_nmsimplex_h tu) !! x = tu_macros tu !! x) as Hl.
  { unfold include_nmsimplex_h. destruct (defined (tu_macros tu) guard); [reflexivity|].
    cbn [tu_macros]. apply lookup_insert_ne. congruence. }
  rewrite Hl. destruct (tu_macros tu !! x) as [old|] eqn:E; [reflexivity|].
  f_equal. unfold include_nmsimplex_h, defined. cbn [tu_macros tu_tokens].
  rewrite lookup_insert_ne by exact Hxg.
  destruct (bool_decide (is_Some (tu_macros tu !! guard))); [reflexivity|].
  cbn [tu_macros tu_tokens].
  rewrite (insert_insert_ne _ guard x) by congruence.
  rewrite !expand_no_macro; [reflexivity| |].
  - apply no_macro_insert_guard. exact Hm.
  - apply no_macro_insert; [exact Hxp|]. apply no_macro_insert_guard. exact Hm.
Qed.

Lemma unrelated_define_commutes_witness :
  (ls ← lex nmsimplex_h;
   run_lines (define_line "NMSIMPLEX_MAXITER" [TNumber "100"] :: ls) footprint_unit)
  = (ls ← lex nmsimplex_h;
     run_lines (ls ++ [define_line "NMSIMPLEX_MAXITER" [TNumber "100"]]) footprint_unit).
Proof.
  apply (unrelated_define_commutes footprint_unit "NMSIMPLEX_MAXITER" [TNumber "100"]);
    vm_compute; reflexivity.
Defined.

End InclusionFacts.

(** ** The footprint of the header on a unit *)

Module FootprintFacts.

Import Source Lex Cpp Decl Header HeaderFacts InclusionFacts.

Local Open Scope list_scope.

Lemma filter_none {A} (P : A -> Prop) `{forall x, Decision (P x)} (l : list A) :
  (forall y, y ∈ l -> ~ P y) -> filter P l = [].
Proof.
  induction l as [|a l IH]; intros H0; [reflexivity|].
  rewrite filter_cons_False by (apply H0; left).
  apply IH. intros y Hy. apply H0. right. exact Hy.
Qed.

Lemma filter_unique {A} (P : A -> Prop) `{forall x, Decision (P x)} (l : list A) x :
  NoDup l -> x ∈ l -> (forall y, y ∈ l -> P y <-> y = x) -> filter P l = [x].
Proof.
  induction l as [|a l IH]; intros Hnd Hx HP.
  - inversion Hx.
  - apply NoDup_cons in Hnd as [Ha Hnd].
    destruct (proj1 (elem_of_cons _ _ _) Hx) as [->|Hx'].
    + rewrite filter_cons_True by (apply HP; [left|reflexivity]).
      f_equal. apply filter_none. intros y Hy Hp.
      apply HP in Hp; [|right; exact Hy]. subst. contradiction.
    + rewrite filter_cons_False.
      * apply IH; [exact Hnd|exact Hx'|]. intros y Hy. apply HP. right. exact Hy.
      * intros Hp. apply HP in Hp; [|left]. subst. contradiction.
Qed.

Lemma new_macros_guard (tu tu' : tunit) :
  tu_macros tu !! guard = None ->
  tu_macros tu' = <[guard := []]> (tu_macros tu) ->
  new_macros tu tu' = [guard].
Proof.
  intros Hg Hm. unfold new_macros. rewrite Hm. apply filter_unique.
  - apply NoDup_elements.
  - apply elem_of_elements. rewrite dom_insert_L. set_solver.
  - intros y _. split.
    + intros Hy. destruct (decide (y = guard)) as [|Hne]; [assumption|].
      exfalso. apply Hy. rewrite lookup_insert_ne by congruence. reflexivity.
    + intros ->. rewrite Hg, lookup_insert_eq. discriminate.
Qed.

Lemma linkage_env_app ds : forall env d,
  linkage_env env (ds ++ [d])
  = (d_name d, linkage_after (linkage_env env ds) d) :: linkage_env env ds.
Proof.
  induction ds as [|d0 ds IH]; intros env d; [reflexivity|].
  cbn [app linkage_env]. apply IH.
Qed.

Lemma linkage_env_length ds : forall env,
  length (linkage_env env ds) = (length ds + length env)%nat.
Proof.
  induction ds as [|d0 ds IH]; intros env; [reflexivity|].
  cbn [linkage_env length]. rewrite IH. cbn [length]. lia.
Qed.

Lemma prior_linkage_fresh ds x : forall env,
  forallb (fun e => negb (String.eqb (d_name e) x)) ds = true ->
  prior_linkage (linkage_env env ds) x = prior_linkage env x.
Proof.
  induction ds as [|d0 ds IH]; intros env H; [reflexivity|].
  cbn [forallb] in H. apply andb_prop in H as [H0 H].
  cbn [linkage_env]. rewrite (IH _ H).
  unfold prior_linkage. cbn [List.find fst snd].
  apply negb_true_iff in H0. rewrite H0. reflexivity.
Qed.

(** The names behind those of [ds] when the prototype follows [ds] and no
    declaration of [ds] is one of [nmsimplex]. *)
Lemma linkages_prototype ds bt :
  forallb (fun e => negb (String.eqb (d_name e) "nmsimplex")) ds = true ->
  drop (length ds) (linkages (ds ++ [nmsimplex_decl_for bt]))
  = [("nmsimplex", External)].
Proof.
  intros H. unfold linkages. rewrite linkage_env_app. cbn [rev].
  rewrite drop_app_length'
    by (rewrite length_rev, linkage_env_length; cbn [length]; lia).
  unfold linkage_after. cbn [d_storage nmsimplex_decl_for is_function d_kind d_name].
  rewrite (prior_linkage_fresh _ _ _ H). reflexivity.
Qed.

(** Line 12 after macro replacement, in a unit of the kind the header is
    written for. *)
Lemma expanded_prototype_parses (env : gmap string (list token)) bt :
  env !! guard = None ->
  forallb (fun x => negb (defined env x)) fixed_words = true ->
  float_type_in env = Some bt ->
  parse_unit (expand (<[guard := []]> env) prototype_tokens)
  = Some [nmsimplex_decl_for bt].
Proof.
  intros Hg Hfix Hf. unfold float_type_in in Hf.
  destruct (env !! "MOT_FLOAT_TYPE") as [body|] eqn:E.
  - destruct body as [|[b|b|c] [|? ?]]; try discriminate.
    destruct (type_word b) eqn:Hw; [|discriminate].
    destruct (defined env b) eqn:Hb; [discriminate|].
    destruct (String.eqb b guard) eqn:Hbg; [discriminate|].
    cbn in Hf. inversion Hf; subst.
    rewrite (expand_prototype_float env b Hg E); try assumption.
    + apply parse_float_prototype. exact Hw.
    + apply not_defined_lookup. rewrite Hb. reflexivity.
  - inversion Hf; subst.
    rewrite expand_no_macro; [exact parse_prototype|].
    apply no_macro_insert_guard.
    assert (negb (defined env "MOT_FLOAT_TYPE") = true) as HM
      by (unfold defined; rewrite E; reflexivity).
    cbn [forallb fixed_words] in Hfix.
    repeat (apply andb_prop in Hfix as [? Hfix]).
    unfold no_macro. cbn [idents flat_map prototype_tokens app forallb].
    repeat match goal with
           | H : negb (defined _ _) = true |- _ => rewrite H; clear H
           end.
    reflexivity.
Qed.

(** C10, as amended: on a first inclusion ([NMSIMPLEX_H] not defined) into a
    unit in which the words of the prototype other than [MOT_FLOAT_TYPE]
    are not macros, and [MOT_FLOAT_TYPE] is no macro or a macro for one
    type word, the header defines the macro [NMSIMPLEX_H] with an empty
    replacement list and changes no other macro, keeps the tokens of the
    unit and adds behind them the declaration of the function [nmsimplex]
    and nothing else.  Where the unit so far consists of declarations,
    none of them of [nmsimplex], the declarations are those followed by
    [nmsimplex], which has external linkage: the footprint is the one
    macro and the one name. *)
Theorem header_footprint_first_inclusion (tu : tunit) (bt : base_type) :
  tu_macros tu !! guard = None ->
  forallb (fun x => negb (defined (tu_macros tu) x)) fixed_words = true ->
  float_type_in (tu_macros tu) = Some bt ->
  exists tu' added,
    include_text nmsimplex_h tu = Some tu'
    /\ tu_macros tu' = <[guard := []]> (tu_macros tu)
    /\ delete guard (tu_macros tu') = tu_macros tu
    /\ new_macros tu tu' = [guard]
    /\ tu_tokens tu' = tu_tokens tu ++ added
    /\ parse_unit added = Some [nmsimplex_decl_for bt]
    /\ (forall ds,
          parse_unit (tu_tokens tu) = Some ds ->
          forallb (fun e => negb (String.eqb (d_name e) "nmsimplex")) ds = true ->
          parse_unit (tu_tokens tu') = Some (ds ++ [nmsimplex_decl_for bt])
          /\ new_names tu tu' = Some [("nmsimplex", External)]
          /\ footprint_as_claimed tu = true).
Proof.
  intros Hg Hfix Hf.
  pose proof (expanded_prototype_parses _ _ Hg Hfix Hf) as Hparse.
  pose proof (include_text_header tu) as Hinc.
  unfold include_nmsimplex_h, defined in Hinc. rewrite Hg in Hinc.
  rewrite bool_decide_eq_false_2 in Hinc by (intros [? ?]; discriminate).
  cbn zeta in Hinc.
  set (added := expand (<[guard := []]> (tu_macros tu)) prototype_tokens) in *.
  set (tu' := {| tu_macros := <[guard := []]> (tu_macros tu);
                 tu_tokens := tu_tokens tu ++ added |}) in *.
  assert (new_macros tu tu' = [guard]) as Hmac
    by (apply new_macros_guard; [exact Hg|reflexivity]).
  exists tu', added. split; [exact Hinc|].
  split; [reflexivity|].
  split; [cbn [tu' tu_macros]; rewrite delete_insert_eq; apply delete_id; exact Hg|].
  split; [exact Hmac|].
  split; [reflexivity|]. split; [exact Hparse|].
  intros ds Hds Hfresh.
  pose proof (DeclFacts.parse_unit_app _ _ _ _ Hds Hparse) as Happ.
  assert (new_names tu tu' = Some [("nmsimplex", External)]) as Hnames.
  { unfold new_names. cbn [tu' tu_tokens]. rewrite Hds, Happ.
    cbn [mbind option_bind].
    rewrite (linkages_prototype _ _ Hfresh). reflexivity. }
  split; [exact Happ|]. split; [exact Hnames|].
  unfold footprint_as_claimed. rewrite Hinc, Hnames, Hmac. reflexivity.
Qed.

Lemma header_footprint_first_inclusion_witness :
  footprint_as_claimed half_unit = true.
Proof.
  destruct (header_footprint_first_inclusion half_unit (Tnamed "half"))
    as (tu' & added & _ & _ & _ & _ & _ & _ & H).
  - vm_compute. reflexivity.
  - vm_compute. reflexivity.
  - vm_compute. reflexivity.
  - apply (H [ {| d_storage := STypedef; d_type := Tbase false Tfloat;
                  d_name := "real"; d_kind := KObject |} ]).
    + vm_compute. reflexivity.
    + vm_compute. reflexivity.
Defined.

(** C10, as stated: the footprint is not the one macro and the one name on
    every unit.  A unit that has included the header before gains
    nothing; in a unit that has declared [nmsimplex] as [static] the name
    has internal linkage; in a unit where [nmsimplex] is a macro another
    name is declared. *)
Lemma header_footprint_counterexample :
  footprint_as_claimed included_unit = false
  /\ (tu' ← include_text nmsimplex_h included_unit;
      Some (new_macros included_unit tu', new_names included_unit tu'))
     = Some ([], Some [])
  /\ footprint_as_claimed static_unit = false
  /\ (tu' ← include_text nmsimplex_h static_unit; new_names static_unit tu')
     = Some [("nmsimplex", Internal)]
  /\ footprint_as_claimed renaming_unit = false
  /\ (tu' ← include_text nmsimplex_h renaming_unit; new_names renaming_unit tu')
     = Some [("nmsimplex_float", External)].
Proof. vm_compute. repeat split; reflexivity. Qed.

End FootprintFacts.
